(** * EchoCore runtime: execution-provider opt-in and two-pass orchestration

    Part one embeds [src/onnxruntime/src/precomp.h]: the two inline helpers
    [ShouldEnableOrtCuda] and [TryEnableCudaExecutionProvider].
    The process environment, the glog sink and the ONNX Runtime call are
    modelled by explicit state passing. *)

From Stdlib Require Import Ascii String ZArith Lia.
From stdpp Require Import base option list sorting strings gmap.

Local Open Scope string_scope.

Module Precomp.

(** ** Characters and strings *)

(** [std::tolower(static_cast<unsigned char>(ch))] in the "C" locale, the
    locale a process starts in: the 26 upper-case letters are shifted, every
    other byte is returned as it is. *)
Definition tolower (ch : ascii) : ascii :=
  let n := N_of_ascii ch in
  if ((65 <=? n) && (n <=? 90))%N then ascii_of_N (n + 32) else ch.

(** [for (char& ch : flag) ch = tolower(ch);] *)
Fixpoint lowercase (flag : string) : string :=
  match flag with
  | EmptyString => EmptyString
  | String ch rest => String (tolower ch) (lowercase rest)
  end.

(** ** Process state *)

(** The environment block read by [std::getenv]: a value is the sequence of
    characters before the terminating NUL; an absent name is [nullptr]. *)
Definition Environ := gmap string string.

Definition getenv (env : Environ) (name : string) : option string := env !! name.

Inductive Severity := INFO | WARNING.

(** What a call leaves behind outside its arguments: glog records, and the
    calls made into ONNX Runtime. *)
Inductive Effect :=
| Log (sev : Severity) (msg : string)
| OrtAppendCUDA (device_id : Z).

Record Process := mkProcess {
  environ : Environ;
  effects : list Effect
}.

Definition LOG (sev : Severity) (msg : string) (p : Process) : Process :=
  {| environ := environ p; effects := effects p ++ [Log sev msg] |}.

Definition ort_call (device_id : Z) (p : Process) : Process :=
  {| environ := environ p; effects := effects p ++ [OrtAppendCUDA device_id] |}.

(** ** ShouldEnableOrtCuda (precomp.h, lines 79-93) *)

Definition ShouldEnableOrtCuda (env : Environ) : bool :=
  match getenv env "FUNASR_ORT_USE_CUDA" with
  | None => false                                  (* raw == nullptr *)
  | Some EmptyString => false                      (* raw[0] == '\0' *)
  | Some raw =>
      let flag := lowercase raw in
      if String.eqb flag "1" || String.eqb flag "true"
         || String.eqb flag "on" || String.eqb flag "yes"
      then true
      else false
  end.

(** ** ONNX Runtime interface *)

(** [OrtCUDAProviderOptions cuda_options{}]: value-initialised, then
    [device_id] is assigned; only that field is ever written here. *)
Record OrtCUDAProviderOptions := { device_id : Z }.

(** [Ort::Exception], the error the C++ API raises (through [ThrowOnError]);
    it derives from [std::exception], so a handler for
    [const std::exception&] receives it. *)
Record OrtException := { what : string }.

Inductive Outcome (A : Type) :=
| Returns (a : A)
| Throws (e : OrtException).
Arguments Returns {A} a.
Arguments Throws {A} e.

Section Provider.

(** [Ort::SessionOptions] is opaque to this header. *)
Variable SessionOptions : Type.

(** [options.AppendExecutionProvider_CUDA(cuda_options)]: the options
    object is passed by reference, so the call yields the object as it is
    left, and either returns or throws. *)
Variable AppendExecutionProvider_CUDA :
  SessionOptions -> OrtCUDAProviderOptions -> SessionOptions * Outcome unit.

(** The [try] block of lines 100-105, before any handler is applied. *)
Definition try_block (options : SessionOptions) (model_tag : string) (p : Process)
  : Outcome bool * SessionOptions * Process :=
  let cuda_options := {| device_id := 0 |} in
  let p1 := ort_call (device_id cuda_options) p in
  match AppendExecutionProvider_CUDA options cuda_options with
  | (options', Returns _) =>
      (Returns true, options', LOG INFO (model_tag ++ " using CUDAExecutionProvider") p1)
  | (options', Throws e) => (Throws e, options', p1)
  end.

(** ** TryEnableCudaExecutionProvider (precomp.h, lines 95-110)

    The result is the outcome of the call (the returned [bool], or an
    exception that leaves the function), the options object after the call
    and the process after the call. *)
Definition TryEnableCudaExecutionProvider
    (options : SessionOptions) (model_tag : string) (p : Process)
  : Outcome bool * SessionOptions * Process :=
  if negb (ShouldEnableOrtCuda (environ p)) then
    (Returns false, options,
     LOG INFO (model_tag ++ " CUDAExecutionProvider disabled by FUNASR_ORT_USE_CUDA") p)
  else
    match try_block options model_tag p with
    | (Returns r, options', p') => (Returns r, options', p')
    | (Throws e, options', p') =>               (* catch (const std::exception& e) *)
        (Returns false, options',
         LOG WARNING (model_tag ++ " fallback to CPUExecutionProvider: " ++ what e) p')
    end.

(** The variant compiled on Apple platforms (lines 112-114), where the
    provider is never tried. *)
Definition TryEnableCudaExecutionProvider_apple
    (options : SessionOptions) (model_tag : string) (p : Process)
  : Outcome bool * SessionOptions * Process :=
  (Returns false, options, p).

(** Successive calls in one process, each on its own options object; the
    outcomes are returned in call order. *)
Fixpoint successive_calls (calls : list (SessionOptions * string)) (p : Process)
  : list (Outcome bool) * Process :=
  match calls with
  | [] => ([], p)
  | (options, model_tag) :: rest =>
      let '(r, _, p1) := TryEnableCudaExecutionProvider options model_tag p in
      let '(rs, p2) := successive_calls rest p1 in
      (r :: rs, p2)
  end.

End Provider.

Arguments try_block {SessionOptions} _ _ _ _.
Arguments TryEnableCudaExecutionProvider {SessionOptions} _ _ _ _.
Arguments successive_calls {SessionOptions} _ _ _.

(** Counting what a process has done so far. *)
Definition is_probe (e : Effect) : bool :=
  match e with OrtAppendCUDA _ => true | _ => false end.

Definition is_warning (e : Effect) : bool :=
  match e with Log WARNING _ => true | _ => false end.

Definition ort_calls (p : Process) : list Effect := List.filter is_probe (effects p).
Definition probes (p : Process) : nat := length (ort_calls p).
Definition warnings (p : Process) : nat := length (List.filter is_warning (effects p)).

Definition fell_back (r : Outcome bool) : bool :=
  match r with Returns false => true | _ => false end.

(** A process whose environment holds the switch with the given value, and
    one where it is absent. *)
Definition with_switch (value : string) : Process :=
  {| environ := {[ "FUNASR_ORT_USE_CUDA" := value ]}; effects := [] |}.

Definition without_switch : Process :=
  {| environ := ∅; effects := [] |}.

(** An ONNX Runtime build without the CUDA provider: every append throws;
    the options object is a list of provider names. *)
Definition no_cuda (options : list string) (_ : OrtCUDAProviderOptions)
  : list string * Outcome unit :=
  (options, Throws {| what := "CUDA execution provider is not enabled in this build" |}).

(** A build with it. *)
Definition has_cuda (options : list string) (_ : OrtCUDAProviderOptions)
  : list string * Outcome unit :=
  ((options ++ ["CUDAExecutionProvider"])%list, Returns tt).

Arguments TryEnableCudaExecutionProvider_apple {SessionOptions} _ _ _.

(** The glog records of a process, in the order they were written. *)
Definition is_log (e : Effect) : bool :=
  match e with Log _ _ => true | _ => false end.

Definition log_records (p : Process) : list Effect := List.filter is_log (effects p).

(** The bytes [tolower] maps to a given byte: a lower-case letter comes
    from itself and from its upper-case form, an upper-case letter from
    nothing, any other byte from itself. *)
Definition variants_of (ch : ascii) : list ascii :=
  let n := N_of_ascii ch in
  if ((97 <=? n) && (n <=? 122))%N then [ch; ascii_of_N (n - 32)]
  else if ((65 <=? n) && (n <=? 90))%N then []
  else [ch].

(** The values the loop of lines 86-88 turns into a given flag. *)
Fixpoint spellings (flag : string) : list string :=
  match flag with
  | EmptyString => [EmptyString]
  | String ch rest =>
      flat_map (fun c => map (String c) (spellings rest)) (variants_of ch)
  end.

(** Every value that the comparison of line 89 accepts. *)
Definition enabling_values : list string :=
  (spellings "1" ++ spellings "true" ++ spellings "on" ++ spellings "yes")%list.

(** ** Properties of the provider opt-in *)

Section ProviderFacts.

Context {SessionOptions : Type}.
Variable append : SessionOptions -> OrtCUDAProviderOptions -> SessionOptions * Outcome unit.

Lemma should_enable_spec (env : Environ) :
  ShouldEnableOrtCuda env = true <->
  exists raw, getenv env "FUNASR_ORT_USE_CUDA" = Some raw /\
    (lowercase raw = "1" \/ lowercase raw = "true" \/
     lowercase raw = "on" \/ lowercase raw = "yes").
Proof.
  unfold ShouldEnableOrtCuda.
  destruct (getenv env "FUNASR_ORT_USE_CUDA") as [raw|] eqn:Hraw.
  - destruct raw as [|ch rest].
    + split; [discriminate|].
      intros (raw & Heq & Hcase). injection Heq as <-.
      simpl in Hcase. intuition discriminate.
    + set (flag := lowercase (String ch rest)).
      split.
      * intros Hif. exists (String ch rest). split; [reflexivity|].
        destruct (String.eqb flag "1") eqn:E1; [apply String.eqb_eq in E1; tauto|].
        destruct (String.eqb flag "true") eqn:E2; [apply String.eqb_eq in E2; tauto|].
        destruct (String.eqb flag "on") eqn:E3; [apply String.eqb_eq in E3; tauto|].
        destruct (String.eqb flag "yes") eqn:E4; [apply String.eqb_eq in E4; tauto|].
        discriminate.
      * intros (raw & Heq & Hcase). injection Heq as <-. fold flag in Hcase.
        destruct Hcase as [H|[H|[H|H]]]; rewrite H; reflexivity.
  - split; [discriminate|]. intros (raw & Heq & _). discriminate.
Qed.

Lemma disabled_call (options : SessionOptions) (model_tag : string) (p : Process) :
  ShouldEnableOrtCuda (environ p) = false ->
  TryEnableCudaExecutionProvider append options model_tag p =
  (Returns false, options,
   LOG INFO (model_tag ++ " CUDAExecutionProvider disabled by FUNASR_ORT_USE_CUDA") p).
Proof. intros Hoff. unfold TryEnableCudaExecutionProvider. by rewrite Hoff. Qed.

Lemma probes_LOG sev msg p : probes (LOG sev msg p) = probes p.
Proof.
  unfold probes, ort_calls, LOG. simpl.
  rewrite List.filter_app. simpl. by rewrite app_nil_r.
Qed.

Lemma probes_ort_call d p : probes (ort_call d p) = S (probes p).
Proof.
  unfold probes, ort_calls, ort_call. simpl.
  rewrite List.filter_app, length_app. simpl. lia.
Qed.

Lemma warnings_ort_call d p : warnings (ort_call d p) = warnings p.
Proof.
  unfold warnings, ort_call. simpl.
  rewrite List.filter_app. simpl. by rewrite app_nil_r.
Qed.

Lemma warnings_LOG sev msg p :
  warnings (LOG sev msg p) =
  warnings p + match sev with WARNING => 1 | INFO => 0 end.
Proof.
  unfold warnings, LOG. simpl.
  rewrite List.filter_app, length_app. by destruct sev.
Qed.

Lemma environ_LOG sev msg p : environ (LOG sev msg p) = environ p.
Proof. reflexivity. Qed.

(** What one call with the switch on does to the process. *)
Lemma enabled_call (options : SessionOptions) (model_tag : string) (p : Process) :
  ShouldEnableOrtCuda (environ p) = true ->
  exists r options' p',
    TryEnableCudaExecutionProvider append options model_tag p = (Returns r, options', p') /\
    environ p' = environ p /\
    probes p' = S (probes p) /\
    warnings p' = warnings p + (if r then 0 else 1).
Proof.
  intros Hon. unfold TryEnableCudaExecutionProvider, try_block. rewrite Hon. simpl.
  destruct (append options {| device_id := 0 |}) as [options' [[]|e]].
  - eexists true, options', _. split; [reflexivity|].
    rewrite environ_LOG, probes_LOG, probes_ort_call, warnings_LOG, warnings_ort_call.
    repeat split; simpl; lia.
  - eexists false, options', _. split; [reflexivity|].
    rewrite environ_LOG, probes_LOG, probes_ort_call, warnings_LOG, warnings_ort_call.
    repeat split; simpl; lia.
Qed.

(** C1: with FUNASR_ORT_USE_CUDA unset or empty, ShouldEnableOrtCuda is
    false, and every call of TryEnableCudaExecutionProvider in such a
    process returns false. *)
Theorem cuda_disabled_by_default (env : Environ) :
  getenv env "FUNASR_ORT_USE_CUDA" = None \/
  getenv env "FUNASR_ORT_USE_CUDA" = Some "" ->
  ShouldEnableOrtCuda env = false /\
  forall (options : SessionOptions) (model_tag : string) (p : Process),
    environ p = env ->
    fst (fst (TryEnableCudaExecutionProvider append options model_tag p)) = Returns false.
Proof.
  intros Hunset.
  assert (Hoff : ShouldEnableOrtCuda env = false).
  { unfold ShouldEnableOrtCuda. by destruct Hunset as [-> | ->]. }
  split; [exact Hoff|].
  intros options model_tag p <-. by rewrite disabled_call.
Qed.

(** C2: when appending the CUDA provider throws, the call catches the
    exception, logs one warning naming the model and the error, and
    returns false; no exception leaves the function. *)
Theorem provider_failure_is_caught
    (options options' : SessionOptions) (model_tag : string) (p : Process)
    (e : OrtException) :
  ShouldEnableOrtCuda (environ p) = true ->
  append options {| device_id := 0 |} = (options', Throws e) ->
  TryEnableCudaExecutionProvider append options model_tag p =
  (Returns false, options',
   LOG WARNING (model_tag ++ " fallback to CPUExecutionProvider: " ++ what e)
       (ort_call 0 p)).
Proof.
  intros Hon Hthrow.
  unfold TryEnableCudaExecutionProvider, try_block. rewrite Hon. simpl.
  by rewrite Hthrow.
Qed.

(** C3 as amended: there is no first-use guard; every call made with the
    switch on probes the provider again, and every probe that fails logs
    its own warning: n calls make n probes, and as many warnings as calls
    that fell back. *)
Theorem every_call_probes
    (calls : list (SessionOptions * string)) (p : Process) :
  ShouldEnableOrtCuda (environ p) = true ->
  let '(rs, p') := successive_calls append calls p in
  length rs = length calls /\
  probes p' = probes p + length calls /\
  warnings p' = warnings p + length (List.filter fell_back rs).
Proof.
  revert p. induction calls as [|[options model_tag] rest IH]; intros p Hon.
  - simpl. lia.
  - simpl.
    destruct (enabled_call options model_tag p Hon)
      as (r & options' & p1 & -> & Henv & Hprobes & Hwarn).
    rewrite <- Henv in Hon. specialize (IH p1 Hon).
    destruct (successive_calls append rest p1) as [rs p2].
    destruct IH as (Hlen & Hp & Hw).
    simpl. destruct r; simpl; repeat split; lia.
Qed.

(** C8: ShouldEnableOrtCuda is true exactly when the variable is set and
    its value, lower-cased character by character, is "1", "true", "on" or
    "yes"; upper and mixed case spellings enable it, and other values such
    as "0" or "enabled" do not. *)
Theorem should_enable_iff_known_flag (env : Environ) :
  (ShouldEnableOrtCuda env = true <->
   exists raw, getenv env "FUNASR_ORT_USE_CUDA" = Some raw /\
     (lowercase raw = "1" \/ lowercase raw = "true" \/
      lowercase raw = "on" \/ lowercase raw = "yes")) /\
  ShouldEnableOrtCuda (environ (with_switch "TRUE")) = true /\
  ShouldEnableOrtCuda (environ (with_switch "Yes")) = true /\
  ShouldEnableOrtCuda (environ (with_switch "ON")) = true /\
  ShouldEnableOrtCuda (environ (with_switch "1")) = true /\
  ShouldEnableOrtCuda (environ (with_switch "0")) = false /\
  ShouldEnableOrtCuda (environ (with_switch "enabled")) = false.
Proof.
  split; [apply should_enable_spec|].
  repeat split; vm_compute; reflexivity.
Qed.

(** C9: when ShouldEnableOrtCuda is false the call returns false, hands
    back the options object it was given, makes no call into ONNX Runtime
    and only adds one INFO record to the log. *)
Theorem disabled_call_leaves_options
    (options : SessionOptions) (model_tag : string) (p : Process) :
  ShouldEnableOrtCuda (environ p) = false ->
  let '(r, options', p') := TryEnableCudaExecutionProvider append options model_tag p in
  r = Returns false /\ options' = options /\
  ort_calls p' = ort_calls p /\
  effects p' =
    (effects p ++
     [Log INFO (model_tag ++ " CUDAExecutionProvider disabled by FUNASR_ORT_USE_CUDA")])%list.
Proof.
  intros Hoff. rewrite (disabled_call _ _ _ Hoff).
  repeat split.
  unfold ort_calls, LOG. simpl. rewrite List.filter_app. simpl. by rewrite app_nil_r.
Qed.

(** Whatever the provider does, the call returns: no exception leaves
    TryEnableCudaExecutionProvider. *)
Lemma call_always_returns (options : SessionOptions) (model_tag : string) (p : Process) :
  exists r, fst (fst (TryEnableCudaExecutionProvider append options model_tag p)) = Returns r.
Proof.
  unfold TryEnableCudaExecutionProvider, try_block.
  destruct (ShouldEnableOrtCuda (environ p)); simpl; [|by eexists].
  destruct (append options {| device_id := 0 |}) as [options' [[]|e]]; by eexists.
Qed.

(** C10: the returned boolean does not depend on model_tag: two calls
    made with the same environment on the same options object, with
    different tags, return the same value and leave the same options
    object; from the same state they also make the same calls into ONNX
    Runtime, so that only log records differ. *)
Theorem result_independent_of_model_tag
    (options : SessionOptions) (tag1 tag2 : string) (p1 p2 : Process) :
  environ p1 = environ p2 ->
  let '(r1, o1, p1') := TryEnableCudaExecutionProvider append options tag1 p1 in
  let '(r2, o2, p2') := TryEnableCudaExecutionProvider append options tag2 p2 in
  r1 = r2 /\ o1 = o2 /\ environ p1' = environ p2' /\
  (ort_calls p1 = ort_calls p2 -> ort_calls p1' = ort_calls p2').
Proof.
  intros Henv. unfold TryEnableCudaExecutionProvider, try_block. rewrite <- Henv.
  destruct (ShouldEnableOrtCuda (environ p1)); simpl.
  - destruct (append options {| device_id := 0 |}) as [options' [[]|e]];
      (repeat split; [done|]); intros Hcalls;
      unfold ort_calls, LOG, ort_call in *; simpl;
      rewrite !List.filter_app, Hcalls; reflexivity.
  - repeat split; [done|]. intros Hcalls.
    unfold ort_calls, LOG in *. simpl. by rewrite !List.filter_app, Hcalls.
Qed.

End ProviderFacts.

(** C1, at a process without the variable. *)
Lemma cuda_disabled_by_default_witness :
  ShouldEnableOrtCuda ∅ = false /\
  fst (fst (TryEnableCudaExecutionProvider has_cuda [] "asr" without_switch)) = Returns false.
Proof.
  assert (Hunset : getenv ∅ "FUNASR_ORT_USE_CUDA" = None \/
                   getenv ∅ "FUNASR_ORT_USE_CUDA" = Some "")
    by (left; reflexivity).
  destruct (cuda_disabled_by_default has_cuda ∅ Hunset) as [Hoff Hcall].
  split; [exact Hoff|].
  apply Hcall. reflexivity.
Defined.

(** C2, at a build without the CUDA provider. *)
Lemma provider_failure_is_caught_witness :
  fst (fst (TryEnableCudaExecutionProvider no_cuda [] "asr" (with_switch "1"))) = Returns false.
Proof.
  rewrite (provider_failure_is_caught no_cuda [] [] "asr" (with_switch "1")
             {| what := "CUDA execution provider is not enabled in this build" |}).
  - reflexivity.
  - vm_compute. reflexivity.
  - reflexivity.
Defined.

(** C3, two calls in one process. *)
Lemma every_call_probes_witness :
  probes (snd (successive_calls no_cuda [([], "asr"); ([], "vad")] (with_switch "on"))) = 2.
Proof.
  assert (Hon : ShouldEnableOrtCuda (environ (with_switch "on")) = true)
    by (vm_compute; reflexivity).
  pose proof (every_call_probes no_cuda [([], "asr"); ([], "vad")] (with_switch "on") Hon) as H.
  destruct (successive_calls no_cuda [([], "asr"); ([], "vad")] (with_switch "on")) as [rs p'].
  destruct H as (_ & Hp & _). exact Hp.
Defined.

(** C3 as stated fails: in a process where the first call already probed
    and fell back, a second call probes again and logs a second warning. *)
Lemma probing_is_repeated_per_call :
  let p0 := with_switch "on" in
  let '(_, _, p1) := TryEnableCudaExecutionProvider no_cuda [] "asr" p0 in
  let '(_, _, p2) := TryEnableCudaExecutionProvider no_cuda [] "vad" p1 in
  probes p1 = 1 /\ warnings p1 = 1 /\ probes p2 = 2 /\ warnings p2 = 2.
Proof. vm_compute. repeat split. Qed.

(** C10, at two processes that differ in what they have logged. *)
Lemma result_independent_of_model_tag_witness :
  fst (fst (TryEnableCudaExecutionProvider has_cuda [] "asr" (with_switch "yes"))) =
  fst (fst (TryEnableCudaExecutionProvider has_cuda [] "vad"
              (LOG INFO "model loaded" (with_switch "yes")))).
Proof.
  assert (Henv : environ (with_switch "yes")
                 = environ (LOG INFO "model loaded" (with_switch "yes")))
    by reflexivity.
  pose proof (result_independent_of_model_tag has_cuda [] "asr" "vad"
                (with_switch "yes") (LOG INFO "model loaded" (with_switch "yes")) Henv) as H.
  destruct (TryEnableCudaExecutionProvider has_cuda [] "asr" (with_switch "yes"))
    as [[r1 o1] p1'].
  destruct (TryEnableCudaExecutionProvider has_cuda [] "vad"
              (LOG INFO "model loaded" (with_switch "yes"))) as [[r2 o2] p2'].
  destruct H as (Hr & _). exact Hr.
Defined.

(** C9, at a process where the variable holds "0". *)
Lemma disabled_call_leaves_options_witness :
  snd (fst (TryEnableCudaExecutionProvider has_cuda ["CPUExecutionProvider"] "asr"
              (with_switch "0"))) = ["CPUExecutionProvider"].
Proof.
  assert (Hoff : ShouldEnableOrtCuda (environ (with_switch "0")) = false)
    by (vm_compute; reflexivity).
  pose proof (disabled_call_leaves_options has_cuda ["CPUExecutionProvider"] "asr"
                (with_switch "0") Hoff) as H.
  destruct (TryEnableCudaExecutionProvider has_cuda ["CPUExecutionProvider"] "asr"
              (with_switch "0")) as [[r o] p'].
  destruct H as (_ & Ho & _). exact Ho.
Defined.

(** ** Further properties of the provider opt-in *)

Lemma tolower_preimage (c d : ascii) : tolower c = d <-> In c (variants_of d).
Proof.
  unfold tolower, variants_of.
  pose proof (N_ascii_bounded c) as Hc. pose proof (N_ascii_bounded d) as Hd.
  destruct ((65 <=? N_of_ascii c) && (N_of_ascii c <=? 90))%N eqn:Hup.
  - apply andb_prop in Hup as [Hlo Hhi]. apply N.leb_le in Hlo, Hhi.
    split.
    + intros <-. rewrite N_ascii_embedding by lia.
      replace ((97 <=? N_of_ascii c + 32) && (N_of_ascii c + 32 <=? 122))%N with true
        by (symmetry; apply andb_true_intro; split; apply N.leb_le; lia).
      right. left.
      replace (N_of_ascii c + 32 - 32)%N with (N_of_ascii c) by lia.
      apply ascii_N_embedding.
    + destruct ((97 <=? N_of_ascii d) && (N_of_ascii d <=? 122))%N eqn:Hlow.
      * apply andb_prop in Hlow as [Hlo' Hhi']. apply N.leb_le in Hlo', Hhi'.
        intros [<-|[<-|[]]]; [lia|].
        rewrite N_ascii_embedding by lia.
        replace (N_of_ascii d - 32 + 32)%N with (N_of_ascii d) by lia.
        apply ascii_N_embedding.
      * destruct ((65 <=? N_of_ascii d) && (N_of_ascii d <=? 90))%N eqn:Hup'; [by intros []|].
        intros [<-|[]].
        apply andb_false_iff in Hup' as [H|H]; apply N.leb_gt in H; lia.
  - split.
    + intros <-. rewrite Hup.
      destruct ((97 <=? N_of_ascii c) && (N_of_ascii c <=? 122))%N; by left.
    + destruct ((97 <=? N_of_ascii d) && (N_of_ascii d <=? 122))%N eqn:Hlow.
      * apply andb_prop in Hlow as [Hlo' Hhi']. apply N.leb_le in Hlo', Hhi'.
        intros [->|[<-|[]]]; [done|]. exfalso.
        rewrite N_ascii_embedding in Hup by lia.
        apply andb_false_iff in Hup as [H|H]; apply N.leb_gt in H; lia.
      * destruct ((65 <=? N_of_ascii d) && (N_of_ascii d <=? 90))%N; [by intros []|].
        by intros [->|[]].
Qed.

Lemma lowercase_preimage (raw flag : string) :
  lowercase raw = flag <-> In raw (spellings flag).
Proof.
  revert flag. induction raw as [|c raw IH]; intros [|d flag]; simpl.
  - split; [by left|done].
  - split; [done|].
    intros (c' & _ & (r & Heq & _)%in_map_iff)%in_flat_map. discriminate.
  - split; [done|]. by intros [?|[]].
  - rewrite in_flat_map. split.
    + intros [= Hc Hraw]. exists c. split; [by apply tolower_preimage|].
      apply in_map. by apply IH.
    + intros (c' & Hc & (r & [= <- <-] & Hr)%in_map_iff).
      f_equal; [by apply tolower_preimage|by apply IH].
Qed.

Lemma lowercase_empty (raw : string) : lowercase raw = "" <-> raw = "".
Proof. destruct raw; simpl; split; done. Qed.

Lemma tolower_idempotent (ch : ascii) : tolower (tolower ch) = tolower ch.
Proof.
  unfold tolower.
  destruct ((65 <=? N_of_ascii ch) && (N_of_ascii ch <=? 90))%N eqn:Hup; [|by rewrite Hup].
  apply andb_prop in Hup as [Hlo Hhi]. apply N.leb_le in Hlo, Hhi.
  rewrite N_ascii_embedding by lia.
  replace (N_of_ascii ch + 32 <=? 90)%N with false; [by rewrite andb_false_r|].
  symmetry. apply N.leb_gt. lia.
Qed.

(** X12: the lower-casing loop of lines 86-88 keeps the length of the
    value, and running it again changes nothing. *)
Theorem lowercase_keeps_length_and_is_idempotent (flag : string) :
  String.length (lowercase flag) = String.length flag /\
  lowercase (lowercase flag) = lowercase flag.
Proof.
  induction flag as [|ch rest [IHlen IHidem]]; [done|]. simpl.
  by rewrite IHlen, IHidem, tolower_idempotent.
Qed.

(** X7: the values that enable the provider are exactly the 29 spellings
    of "1", "true", "on" and "yes" in upper, lower or mixed case; nothing
    is trimmed and no other byte is folded onto a letter. *)
Theorem enabling_values_are_exact (env : Environ) :
  (ShouldEnableOrtCuda env = true <->
   exists raw, getenv env "FUNASR_ORT_USE_CUDA" = Some raw /\ In raw enabling_values) /\
  length enabling_values = 29 /\
  NoDup enabling_values.
Proof.
  split; [|split].
  - rewrite should_enable_spec. unfold enabling_values.
    split; intros (raw & Hraw & Hcase); exists raw; (split; [done|]).
    + rewrite !in_app_iff, <- !lowercase_preimage. tauto.
    + rewrite !in_app_iff, <- !lowercase_preimage in Hcase. tauto.
  - reflexivity.
  - refine (bool_decide_unpack _ _). vm_compute. exact I.
Qed.

(** X8: letter case is ignored: two values with the same lower-case form
    give the same answer. *)
Theorem letter_case_is_ignored (env : Environ) (raw1 raw2 : string) :
  lowercase raw1 = lowercase raw2 ->
  ShouldEnableOrtCuda (<["FUNASR_ORT_USE_CUDA" := raw1]> env) =
  ShouldEnableOrtCuda (<["FUNASR_ORT_USE_CUDA" := raw2]> env).
Proof.
  intros Hsame. unfold ShouldEnableOrtCuda, getenv, Environ in *.
  rewrite !lookup_insert_eq.
  destruct raw1 as [|c1 r1], raw2 as [|c2 r2]; try done.
  by rewrite Hsame.
Qed.

(** X6: no other variable is consulted: setting or removing any other
    name leaves the answer as it was. *)
Theorem other_variables_are_ignored (env : Environ) (name value : string) :
  name <> "FUNASR_ORT_USE_CUDA" ->
  ShouldEnableOrtCuda (<[name := value]> env) = ShouldEnableOrtCuda env /\
  ShouldEnableOrtCuda (delete name env) = ShouldEnableOrtCuda env.
Proof.
  intros Hne. unfold ShouldEnableOrtCuda, getenv, Environ in *.
  by rewrite lookup_insert_ne, lookup_delete_ne.
Qed.

Section MoreProviderFacts.

Context {SessionOptions : Type}.
Variable append : SessionOptions -> OrtCUDAProviderOptions -> SessionOptions * Outcome unit.

(** X1: the call returns true exactly when the switch is on and the append
    returned normally: true means the CUDA provider was appended. *)
Theorem returns_true_iff_appended
    (options : SessionOptions) (model_tag : string) (p : Process) :
  fst (fst (TryEnableCudaExecutionProvider append options model_tag p)) = Returns true <->
  ShouldEnableOrtCuda (environ p) = true /\
  snd (append options {| device_id := 0 |}) = Returns tt.
Proof.
  unfold TryEnableCudaExecutionProvider, try_block.
  destruct (ShouldEnableOrtCuda (environ p)); simpl.
  - destruct (append options {| device_id := 0 |}) as [options' [[]|e]]; simpl;
      split; try done; by intros [_ ?].
  - split; [done|by intros [? _]].
Qed.

(** X5: with the switch on, the options object after the call is the one
    the append left behind, also when it threw: nothing is rolled back. *)
Theorem options_are_what_append_left
    (options : SessionOptions) (model_tag : string) (p : Process) :
  ShouldEnableOrtCuda (environ p) = true ->
  snd (fst (TryEnableCudaExecutionProvider append options model_tag p)) =
  fst (append options {| device_id := 0 |}).
Proof.
  intros Hon. unfold TryEnableCudaExecutionProvider, try_block. rewrite Hon. simpl.
  by destruct (append options {| device_id := 0 |}) as [options' [[]|e]].
Qed.

Lemma log_records_LOG sev msg p :
  log_records (LOG sev msg p) = (log_records p ++ [Log sev msg])%list.
Proof. unfold log_records, LOG. simpl. by rewrite List.filter_app. Qed.

Lemma log_records_ort_call d p : log_records (ort_call d p) = log_records p.
Proof.
  unfold log_records, ort_call. simpl. rewrite List.filter_app. simpl.
  by rewrite app_nil_r.
Qed.

(** X2: every call writes exactly one log record, and it starts with the
    model tag; the record is a WARNING exactly when the switch is on and
    the append threw. *)
Theorem one_log_record_per_call
    (options : SessionOptions) (model_tag : string) (p : Process) :
  exists sev rest,
    log_records (snd (TryEnableCudaExecutionProvider append options model_tag p)) =
      (log_records p ++ [Log sev (model_tag ++ rest)])%list /\
    (sev = WARNING <->
     ShouldEnableOrtCuda (environ p) = true /\
     exists e, snd (append options {| device_id := 0 |}) = Throws e).
Proof.
  unfold TryEnableCudaExecutionProvider, try_block.
  destruct (ShouldEnableOrtCuda (environ p)); simpl.
  - destruct (append options {| device_id := 0 |}) as [options' [[]|e]]; simpl.
    + eexists INFO, _. rewrite log_records_LOG, log_records_ort_call.
      split; [done|]. split; [done|]. by intros [_ [? ?]].
    + eexists WARNING, _. rewrite log_records_LOG, log_records_ort_call.
      split; [done|]. split; [|done]. intros _. split; [done|by eexists].
  - eexists INFO, _. rewrite log_records_LOG.
    split; [done|]. split; [done|]. by intros [? _].
Qed.

Lemma ort_calls_LOG sev msg p : ort_calls (LOG sev msg p) = ort_calls p.
Proof.
  unfold ort_calls, LOG. simpl. rewrite List.filter_app. simpl.
  by rewrite app_nil_r.
Qed.

Lemma ort_calls_ort_call d p :
  ort_calls (ort_call d p) = (ort_calls p ++ [OrtAppendCUDA d])%list.
Proof. unfold ort_calls, ort_call. simpl. by rewrite List.filter_app. Qed.

(** What one call does to the process, on every path. *)
Lemma call_effects (options : SessionOptions) (model_tag : string) (p : Process) :
  exists r options' p' added,
    TryEnableCudaExecutionProvider append options model_tag p = (Returns r, options', p') /\
    environ p' = environ p /\
    effects p' = (effects p ++ added)%list /\
    ort_calls p' =
      (ort_calls p ++
       if ShouldEnableOrtCuda (environ p) then [OrtAppendCUDA 0] else [])%list.
Proof.
  unfold TryEnableCudaExecutionProvider, try_block.
  destruct (ShouldEnableOrtCuda (environ p)); simpl.
  - destruct (append options {| device_id := 0 |}) as [options' [[]|e]].
    + eexists true, options', _, [_; _]. split; [done|]. split; [done|].
      rewrite ort_calls_LOG, ort_calls_ort_call. split; [|done].
      unfold LOG, ort_call. simpl. by rewrite <- app_assoc.
    + eexists false, options', _, [_; _]. split; [done|]. split; [done|].
      rewrite ort_calls_LOG, ort_calls_ort_call. split; [|done].
      unfold LOG, ort_call. simpl. by rewrite <- app_assoc.
  - eexists false, options, _, [_]. split; [done|]. split; [done|].
    rewrite ort_calls_LOG, app_nil_r. by split.
Qed.

(** X10: over any number of calls no exception leaves a call, the
    environment is left as it was, and what the process had logged and
    called before is kept: effects are only appended. *)
Theorem calls_only_append_effects
    (calls : list (SessionOptions * string)) (p : Process) :
  Forall (fun r => exists b, r = Returns b) (fst (successive_calls append calls p)) /\
  length (fst (successive_calls append calls p)) = length calls /\
  environ (snd (successive_calls append calls p)) = environ p /\
  exists added, effects (snd (successive_calls append calls p)) = (effects p ++ added)%list.
Proof.
  revert p. induction calls as [|[options model_tag] rest IH]; intros p; simpl.
  - split; [constructor|]. split; [done|]. split; [done|].
    exists []. by rewrite app_nil_r.
  - destruct (call_effects options model_tag p)
      as (r & options' & p1 & added1 & -> & Henv & Heff & _).
    destruct (IH p1) as (Hall & Hlen & Henv2 & added2 & Heff2).
    destruct (successive_calls append rest p1) as [rs p2]. simpl in *.
    split; [constructor; [by eexists|done]|]. split; [by rewrite Hlen|].
    split; [congruence|].
    exists (added1 ++ added2)%list. by rewrite Heff2, Heff, app_assoc.
Qed.

Lemma result_depends_on_environ
    (options : SessionOptions) (model_tag : string) (p0 p : Process) :
  environ p0 = environ p ->
  fst (fst (TryEnableCudaExecutionProvider append options model_tag p0)) =
  fst (fst (TryEnableCudaExecutionProvider append options model_tag p)).
Proof.
  intros Henv. unfold TryEnableCudaExecutionProvider, try_block. rewrite Henv.
  destruct (ShouldEnableOrtCuda (environ p)); simpl; [|done].
  by destruct (append options {| device_id := 0 |}) as [options' [[]|e]].
Qed.

(** X11: calls keep no memory of each other: every call of a sequence
    returns what the same call returns when it is made alone in the
    initial process. *)
Theorem calls_are_independent
    (calls : list (SessionOptions * string)) (p : Process) :
  fst (successive_calls append calls p) =
  map (fun c => fst (fst (TryEnableCudaExecutionProvider append (fst c) (snd c) p))) calls.
Proof.
  assert (Hgen : forall p0, environ p0 = environ p ->
    fst (successive_calls append calls p0) =
    map (fun c => fst (fst (TryEnableCudaExecutionProvider append (fst c) (snd c) p))) calls).
  { induction calls as [|[options model_tag] rest IH]; intros p0 Henv; [done|].
    simpl.
    pose proof (result_depends_on_environ options model_tag p0 p Henv) as Hsame.
    destruct (call_effects options model_tag p0)
      as (r & options' & p1 & added1 & Hcall & Henv1 & _).
    rewrite Hcall in Hsame. rewrite Hcall.
    specialize (IH p1 ltac:(congruence)).
    destruct (successive_calls append rest p1) as [rs p2]. simpl in *.
    by rewrite IH, Hsame. }
  by apply Hgen.
Qed.

(** X4: every call into ONNX Runtime asks for device 0, and there is one
    per call while the switch is on and none while it is off. *)
Theorem calls_use_device_zero
    (calls : list (SessionOptions * string)) (p : Process) :
  ort_calls (snd (successive_calls append calls p)) =
  (ort_calls p ++
   repeat (OrtAppendCUDA 0)
     (if ShouldEnableOrtCuda (environ p) then length calls else 0))%list.
Proof.
  revert p. induction calls as [|[options model_tag] rest IH]; intros p; simpl.
  - destruct (ShouldEnableOrtCuda (environ p)); simpl; by rewrite app_nil_r.
  - destruct (call_effects options model_tag p)
      as (r & options' & p1 & added1 & -> & Henv & _ & Hcalls).
    specialize (IH p1). rewrite Henv, Hcalls in IH.
    destruct (successive_calls append rest p1) as [rs p2]. simpl in *.
    rewrite IH. destruct (ShouldEnableOrtCuda (environ p)); simpl.
    + by rewrite <- app_assoc.
    + by rewrite !app_nil_r.
Qed.

(** X3: while the switch is off, every call of a sequence returns false
    and no warning is ever logged. *)
Theorem switch_off_sequence
    (calls : list (SessionOptions * string)) (p : Process) :
  ShouldEnableOrtCuda (environ p) = false ->
  fst (successive_calls append calls p) = repeat (Returns false) (length calls) /\
  warnings (snd (successive_calls append calls p)) = warnings p.
Proof.
  revert p. induction calls as [|[options model_tag] rest IH]; intros p Hoff; [done|].
  simpl. rewrite (disabled_call append options model_tag p Hoff).
  match goal with |- context [successive_calls append rest ?q] =>
    destruct (IH q Hoff) as [Hrs Hw]; destruct (successive_calls append rest q) as [rs p2]
  end.
  simpl in *. rewrite Hrs, Hw, warnings_LOG. split; [done|lia].
Qed.

(** X9: the variant compiled on Apple platforms returns false and touches
    neither the options nor the process; the two variants return
    differently exactly when the switch is on and the append succeeds. *)
Theorem apple_variant_differs_only_on_success
    (options : SessionOptions) (model_tag : string) (p : Process) :
  TryEnableCudaExecutionProvider_apple options model_tag p = (Returns false, options, p) /\
  (fst (fst (TryEnableCudaExecutionProvider append options model_tag p))
   = fst (fst (TryEnableCudaExecutionProvider_apple options model_tag p)) <->
   ~ (ShouldEnableOrtCuda (environ p) = true /\
      snd (append options {| device_id := 0 |}) = Returns tt)).
Proof.
  split; [done|].
  unfold TryEnableCudaExecutionProvider, TryEnableCudaExecutionProvider_apple, try_block.
  destruct (ShouldEnableOrtCuda (environ p)); simpl.
  - destruct (append options {| device_id := 0 |}) as [options' [[]|e]]; simpl.
    + split; [done|]. intros Hno. by destruct Hno.
    + split; [|done]. by intros _ [_ ?].
  - split; [|done]. by intros _ [? _].
Qed.

End MoreProviderFacts.

(** X8, at "TRUE" and "true". *)
Lemma letter_case_is_ignored_witness :
  ShouldEnableOrtCuda (<["FUNASR_ORT_USE_CUDA" := "TRUE"]> ∅) =
  ShouldEnableOrtCuda (<["FUNASR_ORT_USE_CUDA" := "true"]> ∅).
Proof. apply letter_case_is_ignored. reflexivity. Defined.

(** X6, at a variable the CUDA runtime reads. *)
Lemma other_variables_are_ignored_witness :
  ShouldEnableOrtCuda (<["CUDA_VISIBLE_DEVICES" := "0"]> (environ (with_switch "on"))) =
  ShouldEnableOrtCuda (environ (with_switch "on")).
Proof.
  apply (other_variables_are_ignored (environ (with_switch "on")) "CUDA_VISIBLE_DEVICES" "0").
  discriminate.
Defined.

(** X5, at a build whose append succeeds. *)
Lemma options_are_what_append_left_witness :
  snd (fst (TryEnableCudaExecutionProvider has_cuda ["CPUExecutionProvider"] "asr"
              (with_switch "1")))
  = fst (has_cuda ["CPUExecutionProvider"] {| device_id := 0 |}).
Proof.
  apply (options_are_what_append_left has_cuda).
  vm_compute. reflexivity.
Defined.

(** X3, at a process where the variable holds "off". *)
Lemma switch_off_sequence_witness :
  fst (successive_calls has_cuda [([], "asr"); ([], "vad")] (with_switch "off"))
  = [Returns false; Returns false].
Proof.
  apply (switch_off_sequence has_cuda [([], "asr"); ([], "vad")] (with_switch "off")).
  vm_compute. reflexivity.
Defined.

End Precomp.

(** * The two-pass stream orchestrator

    precomp.h only includes the headers of the orchestrator
    (tpass-stream.h, tpass-online-stream.h, funasrruntime.h); its code is
    described by the specification alone. This part follows sections 3,
    4.5, 6 and 7 of the specification, and takes the external
    collaborators of sections 4.1-4.4 by their contracts. *)

Module Orchestrator.

Local Open Scope list_scope.

(** Modelled from the spec: the pass-kind tag of the missing orchestrator
    (section 3). *)
Inductive PassKind := online | offline.

(** Modelled from the spec: VadEvent, the output of the missing VAD
    (section 4.2). *)
Inductive VadEvent :=
| SpeechStart (offset : N)
| SpeechContinue
| SpeechEnd (offset : N)
| Timeout.

(** Modelled from the spec: the state machine of the missing orchestrator
    (section 4.5): Idle, Streaming, (per Segment: Open, PendingOffline,
    Finalized), Closed. *)
Inductive SegmentState := Open | PendingOffline | Finalized.
Inductive SessionState := Idle | Streaming | Closed.

(** Modelled from the spec: the errors a call of the missing orchestrator
    hands to its caller (section 7). *)
Inductive Error := ConfigError | AudioFormatError | SessionClosedError.

Inductive Result (A : Type) :=
| Ok (a : A)
| Fail (e : Error).
Arguments Ok {A} a.
Arguments Fail {A} e.

(** Modelled from the spec: the configuration of the missing orchestrator
    (section 6, recognised options). *)
Record Config := {
  chunk_size : N;
  profile : string;
  online_pass : bool;
  max_segment_duration : N;
  prefer_accelerated : bool;
  allow_unordered_partials : bool;
  punctuation : bool;
  itn : bool;
  close_blocking : bool
}.

(** Modelled from the spec: TranscriptUnit, the output record of the
    missing orchestrator (section 6). *)
Record TranscriptUnit := {
  segment_id : nat;
  pass_kind : PassKind;
  text : string;
  start_offset : N;
  end_offset : option N;
  finality : bool;
  degraded : bool
}.

Section Collaborators.

Context {Sample Frame Tensor Hyp FxState VadState : Type}.

(** Modelled from the spec: AudioChunk, the input of the missing
    orchestrator (section 3). *)
Record AudioChunk := {
  samples : list Sample;
  seq_no : N;
  chunk_offset : N
}.

(** The external collaborators, by their contracts (sections 4.1-4.4 and
    the text post-processor of section 2): [extract] is the feature
    extractor with its carry-over state, [advance] the VAD, [infer] the
    inference engine with its mode and provider hint, [decode] the decoder,
    [postprocess] punctuation and inverse text normalisation under their
    two flags. [extract] answers [None] for AudioFormatError; [infer] and
    [decode] answer [None] for InferenceError and DecodeError. *)
Variable known_profile : string -> bool.
Variable fx_init : FxState.
Variable vad_init : VadState.
Variable extract : AudioChunk -> FxState -> option (list Frame * FxState).
Variable advance : list Frame -> VadState -> list VadEvent * VadState.
Variable infer : list Frame -> PassKind -> bool -> option Tensor.
Variable decode : Tensor -> PassKind -> option Hyp.
Variable postprocess : bool -> bool -> Hyp -> string.

(** Modelled from the spec: Segment of the missing orchestrator (section
    3). [seg_hyp] is the current best hypothesis of the online pass,
    [seg_final] the finalization slot of section 9, [seg_held] an online
    unit held back by the ordering rule of section 4.5. *)
Record Segment := {
  seg_start : N;
  seg_end : option N;
  seg_frames : list Frame;
  seg_hyp : option Hyp;
  seg_state : SegmentState;
  seg_final : option TranscriptUnit;
  seg_held : option TranscriptUnit
}.

(** Modelled from the spec: Session of the missing orchestrator (section
    3). A Segment is identified by its position in [segments];
    [next_final] is the first Segment whose final unit has not been
    emitted yet. *)
Record Session := {
  state : SessionState;
  config : Config;
  sample_offset : N;
  fx_state : FxState;
  vad_state : VadState;
  segments : list Segment;
  next_final : nat
}.

(** Field updates. *)
Definition seg_push_frame (f : Frame) (seg : Segment) : Segment :=
  {| seg_start := seg_start seg; seg_end := seg_end seg;
     seg_frames := seg_frames seg ++ [f]; seg_hyp := seg_hyp seg;
     seg_state := seg_state seg; seg_final := seg_final seg;
     seg_held := seg_held seg |}.

Definition seg_set_hyp (h : Hyp) (seg : Segment) : Segment :=
  {| seg_start := seg_start seg; seg_end := seg_end seg;
     seg_frames := seg_frames seg; seg_hyp := Some h;
     seg_state := seg_state seg; seg_final := seg_final seg;
     seg_held := seg_held seg |}.

Definition seg_set_held (held : option TranscriptUnit) (seg : Segment) : Segment :=
  {| seg_start := seg_start seg; seg_end := seg_end seg;
     seg_frames := seg_frames seg; seg_hyp := seg_hyp seg;
     seg_state := seg_state seg; seg_final := seg_final seg;
     seg_held := held |}.

Definition seg_set_pending (end_off : N) (seg : Segment) : Segment :=
  {| seg_start := seg_start seg; seg_end := Some end_off;
     seg_frames := seg_frames seg; seg_hyp := seg_hyp seg;
     seg_state := PendingOffline; seg_final := seg_final seg;
     seg_held := seg_held seg |}.

Definition seg_set_final (u : TranscriptUnit) (seg : Segment) : Segment :=
  {| seg_start := seg_start seg; seg_end := seg_end seg;
     seg_frames := seg_frames seg; seg_hyp := seg_hyp seg;
     seg_state := Finalized; seg_final := Some u;
     seg_held := None |}.

Definition with_segments (segs : list Segment) (s : Session) : Session :=
  {| state := state s; config := config s; sample_offset := sample_offset s;
     fx_state := fx_state s; vad_state := vad_state s;
     segments := segs; next_final := next_final s |}.

Definition with_vad (vs : VadState) (s : Session) : Session :=
  {| state := state s; config := config s; sample_offset := sample_offset s;
     fx_state := fx_state s; vad_state := vs;
     segments := segments s; next_final := next_final s |}.

Definition with_next (k : nat) (s : Session) : Session :=
  {| state := state s; config := config s; sample_offset := sample_offset s;
     fx_state := fx_state s; vad_state := vad_state s;
     segments := segments s; next_final := k |}.

Definition with_state (st : SessionState) (s : Session) : Session :=
  {| state := st; config := config s; sample_offset := sample_offset s;
     fx_state := fx_state s; vad_state := vad_state s;
     segments := segments s; next_final := next_final s |}.

(** Modelled from the spec: one pass of the missing orchestrator over the
    frames of a Segment, inference then decoding (sections 4.3, 4.4); a
    failure of either stage fails the pass. *)
Definition run_pass (cfg : Config) (mode : PassKind) (frames : list Frame)
  : option Hyp :=
  t ← infer frames mode (prefer_accelerated cfg); decode t mode.

Definition render (cfg : Config) (h : Hyp) : string :=
  postprocess (punctuation cfg) (itn cfg) h.

(** The text of the last online Hypothesis of a Segment (empty when the
    online pass never produced one). *)
Definition last_online_text (cfg : Config) (seg : Segment) : string :=
  from_option (render cfg) "" (seg_hyp seg).

(** Modelled from the spec: the non-final unit the missing orchestrator
    emits for the online pass (section 4.5, SpeechContinue). *)
Definition online_unit (cfg : Config) (id : nat) (seg : Segment) (h : Hyp)
  : TranscriptUnit :=
  {| segment_id := id; pass_kind := online; text := render cfg h;
     start_offset := seg_start seg; end_offset := None;
     finality := false; degraded := false |}.

(** Modelled from the spec: the final unit the missing orchestrator emits
    for a Segment (section 4.5, SpeechEnd and failure semantics). The
    offline pass runs over the complete frames of the Segment; when it
    fails, the last online Hypothesis is emitted as final, marked
    degraded. *)
Definition final_unit (cfg : Config) (id : nat) (seg : Segment) : TranscriptUnit :=
  match run_pass cfg offline (seg_frames seg) with
  | Some h =>
      {| segment_id := id; pass_kind := offline; text := render cfg h;
         start_offset := seg_start seg; end_offset := seg_end seg;
         finality := true; degraded := false |}
  | None =>
      {| segment_id := id; pass_kind := online; text := last_online_text cfg seg;
         start_offset := seg_start seg; end_offset := seg_end seg;
         finality := true; degraded := true |}
  end.

Definition new_segment (offset : N) : Segment :=
  {| seg_start := offset; seg_end := None; seg_frames := []; seg_hyp := None;
     seg_state := Open; seg_final := None; seg_held := None |}.

(** Modelled from the spec: "the currently open Segment (if any)" of the
    missing orchestrator: the most recent one, while it is Open. *)
Definition current_open (segs : list Segment) : option (nat * Segment) :=
  match last segs with
  | Some seg =>
      match seg_state seg with
      | Open => Some (length segs - 1, seg)
      | _ => None
      end
  | None => None
  end.

Definition is_finalized (seg : Segment) : bool :=
  match seg_state seg with Finalized => true | _ => false end.

(** Modelled from the spec: the ordering rule of the missing orchestrator
    (section 4.5): an online unit of Segment [id] may go out at once when
    unordered partials are allowed, or when every earlier Segment is
    Finalized. *)
Definition may_emit_online (s : Session) (id : nat) : bool :=
  allow_unordered_partials (config s)
  || forallb is_finalized (take id (segments s)).

(** Modelled from the spec: push_audio of the missing orchestrator on
    SpeechStart. *)
Definition on_speech_start (offset : N) (s : Session) : Session :=
  with_segments (segments s ++ [new_segment offset]) s.

(** Modelled from the spec: push_audio of the missing orchestrator on
    SpeechContinue. [limited] tells that the open Segment already had its
    online pass in this chunk (at most one per chunk per open Segment). *)
Definition on_speech_continue (f : Frame) (limited : bool) (s : Session)
  : list TranscriptUnit * bool * Session :=
  match current_open (segments s) with
  | None => ([], limited, s)
  | Some (id, seg) =>
      let seg1 := seg_push_frame f seg in
      if online_pass (config s) && negb limited then
        match run_pass (config s) online (seg_frames seg1) with
        | Some h =>
            let u := online_unit (config s) id seg1 h in
            let seg2 := seg_set_hyp h seg1 in
            if may_emit_online s id
            then ([u], true, with_segments (<[id := seg2]> (segments s)) s)
            else ([], true,
                  with_segments (<[id := seg_set_held (Some u) seg2]> (segments s)) s)
        | None => ([], true, with_segments (<[id := seg1]> (segments s)) s)
        end
      else ([], limited, with_segments (<[id := seg1]> (segments s)) s)
  end.

(** Modelled from the spec: push_audio of the missing orchestrator on
    SpeechEnd and Timeout; the offline pass is scheduled by leaving the
    Segment PendingOffline, and completes in [offline_complete]. *)
Definition on_speech_end (end_off : N) (s : Session) : Session :=
  match current_open (segments s) with
  | None => s
  | Some (id, seg) =>
      with_segments (<[id := seg_set_pending end_off seg]> (segments s)) s
  end.

(** Modelled from the spec: push_audio of the missing orchestrator, "for
    each VadEvent produced"; a Timeout ends the Segment at the offset the
    session has reached. *)
Definition handle_event (f : Frame)
    (acc : list TranscriptUnit * bool * Session) (ev : VadEvent)
  : list TranscriptUnit * bool * Session :=
  let '(out, limited, s) := acc in
  match ev with
  | SpeechStart offset => (out, false, on_speech_start offset s)
  | SpeechContinue =>
      let '(o, limited', s') := on_speech_continue f limited s in
      (out ++ o, limited', s')
  | SpeechEnd offset => (out, limited, on_speech_end offset s)
  | Timeout => (out, limited, on_speech_end (sample_offset s) s)
  end.

(** Modelled from the spec: how the missing orchestrator hands frames to
    the VAD. The frames of SpeechContinue are not named by the event, so
    frames go to the VAD one at a time and every event comes with the
    frame that caused it. *)
Definition feed_frame (acc : list TranscriptUnit * bool * Session) (f : Frame)
  : list TranscriptUnit * bool * Session :=
  let '(out, limited, s) := acc in
  let '(evs, vs) := advance [f] (vad_state s) in
  fold_left (handle_event f) evs (out, limited, with_vad vs s).

(** Modelled from the spec: push_audio of the missing orchestrator
    (section 4.5). A closed session refuses the chunk; a chunk the
    extractor rejects leaves the session as it was. *)
Definition push_audio (s : Session) (c : AudioChunk)
  : Result (list TranscriptUnit * Session) :=
  match state s with
  | Closed => Fail SessionClosedError
  | _ =>
      match extract c (fx_state s) with
      | None => Fail AudioFormatError
      | Some (frames, fx) =>
          let s1 :=
            {| state := Streaming; config := config s;
               sample_offset := sample_offset s + N.of_nat (length (samples c));
               fx_state := fx; vad_state := vad_state s;
               segments := segments s; next_final := next_final s |} in
          let '(out, _, s2) := fold_left feed_frame frames ([], false, s1) in
          Ok (out, s2)
      end
  end.

(** Modelled from the spec: the final units that are ready at the head of
    the output queue of the missing orchestrator (section 9). *)
Fixpoint ready_finals (segs : list Segment) : list TranscriptUnit :=
  match segs with
  | [] => []
  | seg :: rest =>
      match seg_final seg with
      | Some u => u :: ready_finals rest
      | None => []
      end
  end.

(** Modelled from the spec: the ordered output queue (sections 4.5, 9):
    final units leave in Segment order; the Segment that becomes the head
    releases the online unit that was held back for it. *)
Definition drain (s : Session) : list TranscriptUnit * Session :=
  let finals := ready_finals (drop (next_final s) (segments s)) in
  let k := next_final s + length finals in
  match segments s !! k with
  | Some seg =>
      match seg_held seg with
      | Some u =>
          (finals ++ [u],
           with_next k (with_segments (<[k := seg_set_held None seg]> (segments s)) s))
      | None => (finals, with_next k s)
      end
  | None => (finals, with_next k s)
  end.

(** Modelled from the spec: completion of the offline pass of Segment [id]
    (section 4.5: "when complete, mark Finalized and emit"). *)
Definition offline_complete (id : nat) (s : Session)
  : list TranscriptUnit * Session :=
  match segments s !! id with
  | Some seg =>
      match seg_state seg with
      | PendingOffline =>
          let u := final_unit (config s) id seg in
          drain (with_segments (<[id := seg_set_final u seg]> (segments s)) s)
      | _ => ([], s)
      end
  | None => ([], s)
  end.

(** Modelled from the spec: what a blocking close_session of the missing
    orchestrator waits for: every offline pass in flight completes, in
    Segment order. *)
Definition complete_pending (s : Session) : list TranscriptUnit * Session :=
  fold_left
    (fun (acc : list TranscriptUnit * Session) (id : nat) =>
       let '(o, s') := offline_complete id (snd acc) in (fst acc ++ o, s'))
    (seq 0 (length (segments s))) ([], s).

(** Modelled from the spec: close_session of the missing orchestrator
    (section 4.5): the open Segment, if any, is forced to SpeechEnd; a
    blocking close waits for the offline passes, a non-blocking one flushes
    what is ready and lets them complete later; the session is then
    Closed. *)
Definition close_session (s : Session)
  : Result (list TranscriptUnit * Session) :=
  match state s with
  | Closed => Fail SessionClosedError
  | _ =>
      let s1 := on_speech_end (sample_offset s) s in
      let '(out, s2) :=
        if close_blocking (config s) then complete_pending s1 else drain s1 in
      Ok (out, with_state Closed s2)
  end.

(** Modelled from the spec: open_session of the missing orchestrator
    (section 4.5): chunk size above zero and a known profile, or
    ConfigError. *)
Definition open_session (cfg : Config) : Result Session :=
  if (0 <? chunk_size cfg)%N && known_profile (profile cfg) then
    Ok {| state := Idle; config := cfg; sample_offset := 0;
          fx_state := fx_init; vad_state := vad_init;
          segments := []; next_final := 0 |}
  else Fail ConfigError.

(** Modelled from the spec: what happens to a session of the missing
    orchestrator: calls of its owner, and completions reported by the
    offline worker (section 5). *)
Inductive Call :=
| PushAudio (c : AudioChunk)
| OfflineDone (id : nat)
| CloseSession.

(** One call; a failed call yields nothing and leaves the session as it
    was. *)
Definition step (s : Session) (call : Call) : list TranscriptUnit * Session :=
  match call with
  | PushAudio c =>
      match push_audio s c with Ok r => r | Fail _ => ([], s) end
  | OfflineDone id => offline_complete id s
  | CloseSession =>
      match close_session s with Ok r => r | Fail _ => ([], s) end
  end.

(** The units a caller observes over a sequence of calls. *)
Fixpoint run (calls : list Call) (s : Session) : list TranscriptUnit * Session :=
  match calls with
  | [] => ([], s)
  | call :: rest =>
      let '(o, s1) := step s call in
      let '(os, s2) := run rest s1 in
      (o ++ os, s2)
  end.

(** ** Segment assembly

    Which frames each Segment holds, and whether it is still open, as a
    function of the frame stream alone. *)

Definition is_open (seg : Segment) : bool :=
  match seg_state seg with Open => true | _ => false end.

Definition Shape : Type := list (bool * list Frame).

Definition shape_of (segs : list Segment) : Shape :=
  (fun seg => (is_open seg, seg_frames seg)) <$> segs.

Definition shape_open (sh : Shape) : option (nat * list Frame) :=
  match last sh with
  | Some (true, fs) => Some (length sh - 1, fs)
  | _ => None
  end.

Definition shape_event (f : Frame) (sh : Shape) (ev : VadEvent) : Shape :=
  match ev with
  | SpeechStart _ => sh ++ [(true, [])]
  | SpeechContinue =>
      match shape_open sh with
      | Some (id, fs) => <[id := (true, fs ++ [f])]> sh
      | None => sh
      end
  | SpeechEnd _ | Timeout =>
      match shape_open sh with
      | Some (id, fs) => <[id := (false, fs)]> sh
      | None => sh
      end
  end.

Definition assemble_frame (acc : VadState * Shape) (f : Frame) : VadState * Shape :=
  let '(evs, vs) := advance [f] (fst acc) in
  (vs, fold_left (shape_event f) evs (snd acc)).

Definition assemble (frames : list Frame) (acc : VadState * Shape) : VadState * Shape :=
  fold_left assemble_frame frames acc.

(** The frames held by the Segments of a session, in Segment order. *)
Definition frames_of (s : Session) : list (list Frame) :=
  seg_frames <$> segments s.

(** The parts of a session that only push_audio and close_session change. *)
Definition same_stream (s s' : Session) : Prop :=
  vad_state s' = vad_state s /\ fx_state s' = fx_state s /\ state s' = state s.

(** The chunks a session is given before it is closed. *)
Fixpoint audio_of (calls : list Call) : list AudioChunk :=
  match calls with
  | [] => []
  | PushAudio c :: rest => c :: audio_of rest
  | OfflineDone _ :: rest => audio_of rest
  | CloseSession :: _ => []
  end.

(** The frames the extractor yields over successive chunks; a rejected
    chunk yields none and leaves the carry-over state as it was. *)
Fixpoint extract_all (cs : list AudioChunk) (fx : FxState) : list Frame :=
  match cs with
  | [] => []
  | c :: rest =>
      match extract c fx with
      | Some (frames, fx') => frames ++ extract_all rest fx'
      | None => extract_all rest fx
      end
  end.

(** Section 4.1: the extractor is deterministic and resumable across chunk
    boundaries: what it yields depends on the samples only, and cutting a
    chunk in two neither loses nor repeats a frame. *)
Definition resumable : Prop :=
  (forall c c' fx, samples c = samples c' -> extract c fx = extract c' fx) /\
  (forall c c1 c2 fx, samples c = samples c1 ++ samples c2 ->
     extract c fx =
       '(f1, fx1) ← extract c1 fx;
       '(f2, fx2) ← extract c2 fx1;
       Some (f1 ++ f2, fx2)).

(** ** Invariants of the output queue *)

(** What holds of the Segment stored at position [id]: a filled slot holds
    the final unit of this Segment, it is filled exactly when the Segment is
    Finalized, and a unit held back is an online unit of this Segment. *)
Definition slot_ok (cfg : Config) (id : nat) (seg : Segment) : Prop :=
  (forall u, seg_final seg = Some u -> u = final_unit cfg id seg) /\
  (is_Some (seg_final seg) <-> seg_state seg = Finalized) /\
  (forall u, seg_held seg = Some u ->
     segment_id u = id /\ start_offset u = seg_start seg /\ finality u = false).

(** Every Segment before [next_final] has had its final unit emitted. *)
Definition queue_ok (s : Session) : Prop :=
  (forall id seg, segments s !! id = Some seg -> slot_ok (config s) id seg) /\
  (forall id, id < next_final s ->
     exists seg, segments s !! id = Some seg /\ is_Some (seg_final seg)).

(** Nothing that is ready waits at the head of the queue. *)
Definition drained (s : Session) : Prop :=
  forall seg, segments s !! next_final s = Some seg -> seg_final seg = None.

Definition wf (s : Session) : Prop := queue_ok s /\ drained s.

(** A later state of the same session: Segments are only added, keep their
    start offset, and a filled slot is never rewritten. *)
Definition extends (s s' : Session) : Prop :=
  config s' = config s /\
  next_final s <= next_final s' /\
  (forall id seg, segments s !! id = Some seg ->
     exists seg', segments s' !! id = Some seg' /\
       seg_start seg' = seg_start seg /\
       (forall u, seg_final seg = Some u -> seg_final seg' = Some u)).

(** The units [o] emitted between [s] and [s']: the final ones are those of
    the Segments the queue head has passed, one each and in order; every
    unit belongs to a stored Segment; and, unless unordered partials are
    allowed, units leave in Segment order. *)
Definition emitted_ok (s : Session) (o : list TranscriptUnit) (s' : Session) : Prop :=
  segment_id <$> List.filter finality o
    = seq (next_final s) (next_final s' - next_final s) /\
  (forall u, u ∈ o ->
     exists seg, segments s' !! segment_id u = Some seg /\
       start_offset u = seg_start seg /\
       (finality u = true -> seg_final seg = Some u)) /\
  (allow_unordered_partials (config s) = false ->
     StronglySorted le (segment_id <$> o) /\
     forall u, u ∈ o -> next_final s <= segment_id u <= next_final s').

Definition advances (s : Session) (o : list TranscriptUnit) (s' : Session) : Prop :=
  extends s s' /\ emitted_ok s o s'.

(** ** Online units and the degraded final unit *)

Definition is_online_of (id : nat) (v : TranscriptUnit) : bool :=
  Nat.eqb (segment_id v) id && negb (finality v).

(** The last online unit of Segment [id] among the units [out] a caller
    has observed. *)
Definition last_online_unit (id : nat) (out : list TranscriptUnit)
  : option TranscriptUnit :=
  last (List.filter (is_online_of id) out).

(** Modelled from the spec: the final unit of a Segment whose offline pass
    failed, as the missing orchestrator emits it (section 4.5, failure
    semantics): the last online Hypothesis, marked final and degraded. *)
Definition degraded_unit (cfg : Config) (id : nat) (seg : Segment) : TranscriptUnit :=
  {| segment_id := id; pass_kind := online; text := last_online_text cfg seg;
     start_offset := seg_start seg; end_offset := seg_end seg;
     finality := true; degraded := true |}.

(** A unit is held back only for a Segment behind the head of the queue,
    while partials are ordered; it carries the last online Hypothesis. *)
Definition held_ok (s : Session) (id : nat) (seg : Segment) : Prop :=
  forall hu, seg_held seg = Some hu ->
    text hu = last_online_text (config s) seg /\
    seg_final seg = None /\
    allow_unordered_partials (config s) = false /\
    next_final s < id.

(** The units [out] observed so far agree with the session: the last
    online unit observed for a Segment carries its last online
    Hypothesis. *)
Definition online_ok (out : list TranscriptUnit) (s : Session) : Prop :=
  (forall id seg, segments s !! id = Some seg -> held_ok s id seg) /\
  (forall id seg v, segments s !! id = Some seg ->
     last_online_unit id out = Some v ->
     text v = last_online_text (config s) seg).

(** The units observed so far belong to stored Segments and, while
    partials are ordered, to Segments up to the head of the queue. *)
Definition bounded (out : list TranscriptUnit) (s : Session) : Prop :=
  (forall v, v ∈ out -> segment_id v < length (segments s)) /\
  (allow_unordered_partials (config s) = false ->
     forall v, v ∈ out -> segment_id v <= next_final s).

Definition follows (s : Session) (o : list TranscriptUnit) (s' : Session) : Prop :=
  forall out0, bounded out0 s -> online_ok out0 s -> online_ok (out0 ++ o) s'.

Definition sound (s : Session) (o : list TranscriptUnit) (s' : Session) : Prop :=
  wf s' /\ advances s o s' /\ follows s o s'.

(** ** The Closed state *)

Lemma push_audio_closed (s : Session) (c : AudioChunk) :
  state s = Closed -> push_audio s c = Fail SessionClosedError.
Proof. intros Hc. unfold push_audio. by rewrite Hc. Qed.

Lemma close_session_closed (s : Session) :
  state s = Closed -> close_session s = Fail SessionClosedError.
Proof. intros Hc. unfold close_session. by rewrite Hc. Qed.

Lemma drain_state (s : Session) : state (snd (drain s)) = state s.
Proof.
  unfold drain.
  destruct (segments s !! _) as [seg|]; [destruct (seg_held seg)|]; reflexivity.
Qed.

Lemma offline_complete_state (id : nat) (s : Session) :
  state (snd (offline_complete id s)) = state s.
Proof.
  unfold offline_complete.
  destruct (segments s !! id) as [seg|]; [|reflexivity].
  destruct (seg_state seg); try reflexivity.
  by rewrite drain_state.
Qed.

Lemma step_closed (s : Session) (call : Call) :
  state s = Closed -> state (snd (step s call)) = Closed.
Proof.
  intros Hc. destruct call as [c|id|]; simpl.
  - by rewrite push_audio_closed.
  - by rewrite offline_complete_state.
  - by rewrite close_session_closed.
Qed.

Lemma run_closed (calls : list Call) (s : Session) :
  state s = Closed -> state (snd (run calls s)) = Closed.
Proof.
  revert s. induction calls as [|call rest IH]; intros s Hc; [exact Hc|].
  simpl. pose proof (step_closed s call Hc) as H1.
  destruct (step s call) as [o s1]. specialize (IH s1 H1).
  by destruct (run rest s1).
Qed.

Lemma close_session_closes (s s' : Session) (out : list TranscriptUnit) :
  close_session s = Ok (out, s') -> state s' = Closed.
Proof.
  unfold close_session. destruct (state s); try discriminate.
  all: destruct (if close_blocking (config s) then _ else _) as [o s2].
  all: by intros [= _ <-].
Qed.

(** C6: once a session is Closed, whatever happens to it afterwards, every
    push_audio on it fails with SessionClosedError, and the error is what
    the caller gets back. *)
Theorem push_after_close_fails
    (s : Session) (calls : list Call) (c : AudioChunk) :
  state s = Closed ->
  push_audio (snd (run calls s)) c = Fail SessionClosedError.
Proof. intros Hc. apply push_audio_closed. by apply run_closed. Qed.

(** ** The output queue *)

Lemma current_open_Some (segs : list Segment) (id : nat) (seg : Segment) :
  current_open segs = Some (id, seg) ->
  segs !! id = Some seg /\ seg_state seg = Open /\ S id = length segs.
Proof.
  unfold current_open. rewrite last_lookup.
  destruct (segs !! pred (length segs)) as [seg0|] eqn:Hl; [|done].
  destruct (seg_state seg0) eqn:Hst; try done.
  intros [= <- <-].
  pose proof (lookup_lt_Some _ _ _ Hl) as Hlt.
  replace (length segs - 1) with (pred (length segs)) by lia.
  repeat split; [done..|lia].
Qed.

Lemma extends_refl (s : Session) : extends s s.
Proof. repeat split; [lia|]. intros id seg Hid. by exists seg. Qed.

Lemma extends_trans (s1 s2 s3 : Session) :
  extends s1 s2 -> extends s2 s3 -> extends s1 s3.
Proof.
  intros (Hc1 & Hn1 & Hs1) (Hc2 & Hn2 & Hs2).
  repeat split; [congruence|lia|].
  intros id seg Hid.
  destruct (Hs1 id seg Hid) as (seg2 & Hid2 & Hst2 & Hf2).
  destruct (Hs2 id seg2 Hid2) as (seg3 & Hid3 & Hst3 & Hf3).
  exists seg3. repeat split; [done|congruence|].
  intros u Hu. by apply Hf3, Hf2.
Qed.

Lemma advances_refl (s : Session) : advances s [] s.
Proof.
  split; [apply extends_refl|].
  split; [|split].
  - simpl. by rewrite Nat.sub_diag.
  - intros u Hu. by apply elem_of_nil in Hu.
  - intros _. split; [constructor|].
    intros u Hu. by apply elem_of_nil in Hu.
Qed.

Lemma advances_trans (s1 s2 s3 : Session) (o1 o2 : list TranscriptUnit) :
  advances s1 o1 s2 -> advances s2 o2 s3 -> advances s1 (o1 ++ o2) s3.
Proof.
  intros [He1 (Hf1 & Hu1 & Ho1)] [He2 (Hf2 & Hu2 & Ho2)].
  split; [by eapply extends_trans|].
  destruct He1 as (Hc1 & Hn1 & Hs1). destruct He2 as (Hc2 & Hn2 & Hs2).
  split; [|split].
  - rewrite List.filter_app, fmap_app, Hf1, Hf2.
    replace (next_final s3 - next_final s1)
      with ((next_final s2 - next_final s1) + (next_final s3 - next_final s2)) by lia.
    rewrite seq_app. do 2 f_equal. lia.
  - intros u [Hu|Hu]%elem_of_app; [|by apply Hu2].
    destruct (Hu1 u Hu) as (seg2 & Hid2 & Hst & Hfin).
    destruct (Hs2 _ _ Hid2) as (seg3 & Hid3 & Hst3 & Hf3).
    exists seg3. repeat split; [done|congruence|].
    intros Hfu. by apply Hf3, Hfin.
  - intros Hord.
    destruct (Ho1 Hord) as [Hsort1 Hb1].
    rewrite <- Hc1 in Hord. destruct (Ho2 Hord) as [Hsort2 Hb2].
    split.
    + rewrite fmap_app. apply StronglySorted_app_2; [|done..].
      intros x1 x2 (u1 & -> & Hin1)%list_elem_of_fmap (u2 & -> & Hin2)%list_elem_of_fmap.
      specialize (Hb1 _ Hin1). specialize (Hb2 _ Hin2). lia.
    + intros u [Hu|Hu]%elem_of_app.
      * specialize (Hb1 _ Hu). lia.
      * specialize (Hb2 _ Hu). lia.
Qed.

Lemma final_unit_facts (cfg : Config) (id : nat) (seg : Segment) :
  segment_id (final_unit cfg id seg) = id /\
  start_offset (final_unit cfg id seg) = seg_start seg /\
  finality (final_unit cfg id seg) = true.
Proof. unfold final_unit. by destruct (run_pass _ _ _). Qed.

Lemma unfinished_slot_empty (cfg : Config) (id : nat) (seg : Segment) :
  slot_ok cfg id seg -> seg_state seg <> Finalized -> seg_final seg = None.
Proof.
  intros (_ & Hfin & _) Hst.
  destruct (seg_final seg) as [u|] eqn:Hu; [|done].
  destruct Hst. apply Hfin. by eexists.
Qed.

(** Replacing a Segment that is not Finalized by another one that is not,
    with the same start and an empty slot. *)
Lemma replace_unfinished (s : Session) (id : nat) (seg seg' : Segment) :
  wf s ->
  segments s !! id = Some seg ->
  seg_state seg <> Finalized ->
  seg_state seg' <> Finalized ->
  seg_final seg' = None ->
  seg_start seg' = seg_start seg ->
  (forall u, seg_held seg' = Some u ->
     segment_id u = id /\ start_offset u = seg_start seg /\ finality u = false) ->
  wf (with_segments (<[id := seg']> (segments s)) s) /\
  extends s (with_segments (<[id := seg']> (segments s)) s).
Proof.
  intros [[Hslots Hdone] Hdrained] Hid Hst Hst' Hfin' Hstart' Hheld'.
  pose proof (unfinished_slot_empty _ _ _ (Hslots _ _ Hid) Hst) as Hfin.
  pose proof (lookup_lt_Some _ _ _ Hid) as Hlt.
  split; [split; [split|]|].
  - intros j segj [(<- & <- & _)|(Hne & Hj)]%list_lookup_insert_Some; simpl.
    + split; [by rewrite Hfin'|]. split; [|by rewrite Hstart'].
      rewrite Hfin'. split; [by intros [? ?]|done].
    + by apply Hslots.
  - simpl. intros j Hj. destruct (Hdone j Hj) as (segj & Hsegj & Hsome).
    exists segj. split; [|done].
    rewrite list_lookup_insert_ne; [done|].
    intros <-. rewrite Hid in Hsegj. injection Hsegj as <-.
    rewrite Hfin in Hsome. by destruct Hsome.
  - intros segh. simpl.
    intros [(<- & <- & _)|(Hne & Hj)]%list_lookup_insert_Some; [done|].
    by apply Hdrained.
  - split; [done|]. split; [simpl; lia|].
    intros j segj Hj. simpl.
    destruct (decide (id = j)) as [<-|Hne].
    + exists seg'. rewrite list_lookup_insert_eq by done.
      rewrite Hid in Hj. injection Hj as <-.
      split; [done|]. split; [done|]. intros u. by rewrite Hfin.
    + exists segj. by rewrite list_lookup_insert_ne.
Qed.

Lemma on_speech_start_ok (offset : N) (s : Session) :
  wf s -> wf (on_speech_start offset s) /\ extends s (on_speech_start offset s).
Proof.
  intros [[Hslots Hdone] Hdrained]. unfold on_speech_start.
  split; [split; [split|]|].
  - intros j segj. simpl.
    intros [(_ & Hj)|(-> & <-)]%lookup_snoc_Some; [by apply Hslots|].
    split; [done|]. split; [|done]. simpl. split; [by intros [? ?]|done].
  - simpl. intros j Hj. destruct (Hdone j Hj) as (segj & Hsegj & Hsome).
    exists segj. split; [|done].
    rewrite lookup_app_l; [done|]. by eapply lookup_lt_Some.
  - intros segh. simpl.
    intros [(_ & Hj)|(_ & <-)]%lookup_snoc_Some; [by apply Hdrained|done].
  - split; [done|]. split; [simpl; lia|].
    intros j segj Hj. simpl. exists segj.
    rewrite lookup_app_l; [done|]. by eapply lookup_lt_Some.
Qed.

Lemma on_speech_end_ok (end_off : N) (s : Session) :
  wf s -> wf (on_speech_end end_off s) /\ extends s (on_speech_end end_off s).
Proof.
  intros Hwf. unfold on_speech_end.
  destruct (current_open (segments s)) as [[id seg]|] eqn:Hopen;
    [|split; [done|apply extends_refl]].
  apply current_open_Some in Hopen as (Hid & Hst & _).
  pose proof (proj1 (proj1 Hwf) _ _ Hid) as Hslot.
  assert (Hnf : seg_state seg <> Finalized) by by rewrite Hst.
  apply replace_unfinished with (seg := seg); try done.
  - simpl. by eapply unfinished_slot_empty.
  - simpl. apply Hslot.
Qed.

Lemma emitted_nothing (s s' : Session) :
  next_final s' = next_final s -> emitted_ok s [] s'.
Proof.
  intros Hn. split; [|split].
  - rewrite Hn, Nat.sub_diag. reflexivity.
  - intros u Hu. by apply elem_of_nil in Hu.
  - intros _. split; [constructor|].
    intros u Hu. by apply elem_of_nil in Hu.
Qed.

(** When every earlier Segment is Finalized, an unfinished Segment is the
    head of the queue. *)
Lemma unfinished_is_head (s : Session) (id : nat) (seg : Segment) :
  wf s ->
  segments s !! id = Some seg ->
  seg_state seg <> Finalized ->
  forallb is_finalized (take id (segments s)) = true ->
  next_final s = id.
Proof.
  intros [[Hslots Hdone] Hdrained] Hid Hst Hall.
  pose proof (unfinished_slot_empty _ _ _ (Hslots _ _ Hid) Hst) as Hfin.
  destruct (Nat.lt_trichotomy (next_final s) id) as [Hlt|[Heq|Hgt]]; [|done|].
  - exfalso.
    pose proof (lookup_lt_Some _ _ _ Hid) as Hlen.
    destruct (lookup_lt_is_Some_2 (segments s) (next_final s)) as [segh Hh]; [lia|].
    rewrite forallb_forall in Hall.
    assert (Htake : take id (segments s) !! next_final s = Some segh)
      by by rewrite lookup_take_lt.
    apply list_elem_of_lookup_2, list_elem_of_In in Htake.
    specialize (Hall _ Htake). unfold is_finalized in Hall.
    destruct (seg_state segh) eqn:Hsth; try done.
    destruct (Hslots _ _ Hh) as (_ & Hiff & _).
    apply Hiff in Hsth as [u Hu].
    by rewrite (Hdrained _ Hh) in Hu.
  - exfalso. destruct (Hdone id Hgt) as (seg0 & Hid0 & [u Hu]).
    rewrite Hid in Hid0. injection Hid0 as <-. by rewrite Hfin in Hu.
Qed.

Lemma on_speech_continue_ok (f : Frame) (limited : bool) (s : Session) :
  wf s ->
  wf (snd (on_speech_continue f limited s)) /\
  advances s (fst (fst (on_speech_continue f limited s)))
           (snd (on_speech_continue f limited s)).
Proof.
  intros Hwf. unfold on_speech_continue.
  destruct (current_open (segments s)) as [[id seg]|] eqn:Hopen;
    [|split; [done|apply advances_refl]].
  apply current_open_Some in Hopen as (Hid & Hst & _).
  pose proof (proj1 (proj1 Hwf) _ _ Hid) as Hslot.
  assert (Hnf : seg_state seg <> Finalized) by by rewrite Hst.
  pose proof (unfinished_slot_empty _ _ _ Hslot Hnf) as Hfin.
  destruct Hslot as (_ & _ & Hheld).
  assert (Hquiet : forall seg',
    seg_state seg' = seg_state seg -> seg_final seg' = seg_final seg ->
    seg_start seg' = seg_start seg -> seg_held seg' = seg_held seg ->
    wf (with_segments (<[id := seg']> (segments s)) s) /\
    advances s [] (with_segments (<[id := seg']> (segments s)) s)).
  { intros seg' Hst' Hfin' Hstart' Hheld'.
    destruct (replace_unfinished s id seg seg' Hwf Hid Hnf) as [Hwf' Hext];
      [congruence|congruence|done|by rewrite Hheld'|].
    split; [done|]. split; [done|]. by apply emitted_nothing. }
  destruct (online_pass (config s) && negb limited); [|by apply Hquiet].
  destruct (run_pass (config s) online (seg_frames (seg_push_frame f seg)))
    as [h|]; [|by apply Hquiet].
  set (seg2 := seg_set_hyp h (seg_push_frame f seg)).
  set (u := online_unit (config s) id (seg_push_frame f seg) h).
  destruct (may_emit_online s id) eqn:Hmay; simpl.
  - destruct (Hquiet seg2) as [Hwf' [Hext _]]; [done..|].
    split; [done|]. split; [done|].
    split; [|split].
    + simpl. by rewrite Nat.sub_diag.
    + intros u' ->%list_elem_of_singleton. exists seg2. simpl.
      rewrite list_lookup_insert_eq by by eapply lookup_lt_Some. done.
    + intros Hord. simpl.
      unfold may_emit_online in Hmay. rewrite Hord in Hmay. simpl in Hmay.
      pose proof (unfinished_is_head s id seg Hwf Hid Hnf Hmay) as Hhead.
      split; [repeat constructor|].
      intros u' ->%list_elem_of_singleton. simpl. lia.
  - destruct (replace_unfinished s id seg (seg_set_held (Some u) seg2) Hwf Hid Hnf)
      as [Hwf' Hext]; [simpl; congruence|done|done| |].
    { simpl. by intros u' [= <-]. }
    split; [done|]. split; [done|]. by apply emitted_nothing.
Qed.

Lemma handle_event_ok (f : Frame) (out : list TranscriptUnit) (limited : bool)
    (s : Session) (ev : VadEvent) :
  wf s ->
  exists o,
    fst (fst (handle_event f (out, limited, s) ev)) = out ++ o /\
    wf (snd (handle_event f (out, limited, s) ev)) /\
    advances s o (snd (handle_event f (out, limited, s) ev)).
Proof.
  intros Hwf. destruct ev as [offset| |offset|]; simpl.
  - exists []. rewrite app_nil_r.
    destruct (on_speech_start_ok offset s Hwf) as [Hwf' Hext].
    split; [done|]. split; [done|]. split; [done|]. by apply emitted_nothing.
  - pose proof (on_speech_continue_ok f limited s Hwf) as [Hwf' Hadv].
    destruct (on_speech_continue f limited s) as [[o limited'] s'].
    by exists o.
  - exists []. rewrite app_nil_r.
    destruct (on_speech_end_ok offset s Hwf) as [Hwf' Hext].
    split; [done|]. split; [done|]. split; [done|]. apply emitted_nothing.
    unfold on_speech_end. by destruct (current_open _) as [[? ?]|].
  - exists []. rewrite app_nil_r.
    destruct (on_speech_end_ok (sample_offset s) s Hwf) as [Hwf' Hext].
    split; [done|]. split; [done|]. split; [done|]. apply emitted_nothing.
    unfold on_speech_end. by destruct (current_open _) as [[? ?]|].
Qed.

Lemma fold_events_ok (f : Frame) (evs : list VadEvent)
    (acc : list TranscriptUnit * bool * Session) :
  wf (snd acc) ->
  exists o,
    fst (fst (fold_left (handle_event f) evs acc)) = fst (fst acc) ++ o /\
    wf (snd (fold_left (handle_event f) evs acc)) /\
    advances (snd acc) o (snd (fold_left (handle_event f) evs acc)).
Proof.
  revert acc. induction evs as [|ev rest IH]; intros [[out limited] s] Hwf.
  - exists []. simpl. rewrite app_nil_r. split; [done|]. split; [done|]. apply advances_refl.
  - change (fold_left (handle_event f) (ev :: rest) (out, limited, s))
      with (fold_left (handle_event f) rest (handle_event f (out, limited, s) ev)).
    destruct (handle_event_ok f out limited s ev Hwf) as (o1 & Ho1 & Hwf1 & Hadv1).
    destruct (IH _ Hwf1) as (o2 & Ho2 & Hwf2 & Hadv2).
    exists (o1 ++ o2). split; [|split; [done|]].
    + rewrite Ho2, Ho1. simpl. by rewrite app_assoc.
    + by eapply advances_trans.
Qed.

Lemma feed_frame_ok (acc : list TranscriptUnit * bool * Session) (f : Frame) :
  wf (snd acc) ->
  exists o,
    fst (fst (feed_frame acc f)) = fst (fst acc) ++ o /\
    wf (snd (feed_frame acc f)) /\
    advances (snd acc) o (snd (feed_frame acc f)).
Proof.
  destruct acc as [[out limited] s]. intros Hwf. unfold feed_frame.
  destruct (advance [f] (vad_state s)) as [evs vs].
  exact (fold_events_ok f evs (out, limited, with_vad vs s) Hwf).
Qed.

Lemma fold_frames_ok (frames : list Frame)
    (acc : list TranscriptUnit * bool * Session) :
  wf (snd acc) ->
  exists o,
    fst (fst (fold_left feed_frame frames acc)) = fst (fst acc) ++ o /\
    wf (snd (fold_left feed_frame frames acc)) /\
    advances (snd acc) o (snd (fold_left feed_frame frames acc)).
Proof.
  revert acc. induction frames as [|f rest IH]; intros acc Hwf.
  - exists []. simpl. rewrite app_nil_r. split; [done|]. split; [done|]. apply advances_refl.
  - change (fold_left feed_frame (f :: rest) acc)
      with (fold_left feed_frame rest (feed_frame acc f)).
    destruct (feed_frame_ok acc f Hwf) as (o1 & Ho1 & Hwf1 & Hadv1).
    destruct (IH _ Hwf1) as (o2 & Ho2 & Hwf2 & Hadv2).
    exists (o1 ++ o2). split; [|split; [done|]].
    + rewrite Ho2, Ho1. by rewrite app_assoc.
    + by eapply advances_trans.
Qed.

Lemma push_audio_ok (s s' : Session) (c : AudioChunk) (o : list TranscriptUnit) :
  wf s -> push_audio s c = Ok (o, s') -> wf s' /\ advances s o s'.
Proof.
  intros Hwf. unfold push_audio.
  assert (Hgo : forall st,
    match extract c (fx_state s) with
    | Some (frames, fx) =>
        let s1 :=
          {| state := st; config := config s;
             sample_offset := sample_offset s + N.of_nat (length (samples c));
             fx_state := fx; vad_state := vad_state s;
             segments := segments s; next_final := next_final s |} in
        let '(out, _, s2) := fold_left feed_frame frames ([], false, s1) in
        Ok (out, s2)
    | None => Fail AudioFormatError
    end = Ok (o, s') -> wf s' /\ advances s o s').
  { intros st. destruct (extract c (fx_state s)) as [[frames fx]|]; [|done].
    simpl.
    match goal with |- context [fold_left feed_frame frames ?a] =>
      destruct (fold_frames_ok frames a Hwf) as (o1 & Ho1 & Hwf1 & Hadv1);
      destruct (fold_left feed_frame frames a) as [[out lim] s2]
    end.
    simpl in *. intros [= <- <-]. subst out. by split. }
  destruct (state s); [apply Hgo..|done].
Qed.

Lemma StronglySorted_seq (n len : nat) : StronglySorted le (seq n len).
Proof.
  revert n. induction len as [|len IH]; intros n; simpl; constructor; [apply IH|].
  apply Forall_forall. intros x Hx%elem_of_seq. lia.
Qed.

Lemma filter_all_true {A : Type} (f : A -> bool) (l : list A) :
  (forall x, x ∈ l -> f x = true) -> List.filter f l = l.
Proof.
  induction l as [|x l IH]; intros Hall; [done|]. simpl.
  rewrite (Hall x) by left. f_equal. apply IH. intros y Hy. apply Hall. by right.
Qed.

(** The final units at the head of the queue, for Segments stored from
    position [n] on. *)
Lemma ready_finals_spec (cfg : Config) (l : list Segment) (n : nat) :
  (forall i seg, l !! i = Some seg -> slot_ok cfg (n + i) seg) ->
  segment_id <$> ready_finals l = seq n (length (ready_finals l)) /\
  (forall u, u ∈ ready_finals l -> finality u = true) /\
  (forall i u, ready_finals l !! i = Some u ->
     exists seg, l !! i = Some seg /\ seg_final seg = Some u /\
       start_offset u = seg_start seg) /\
  (forall seg, l !! length (ready_finals l) = Some seg -> seg_final seg = None).
Proof.
  revert n. induction l as [|seg rest IH]; intros n Hslots; simpl.
  - split; [done|]. split; [|split].
    + intros u Hu. by apply elem_of_nil in Hu.
    + intros i u Hi. by rewrite lookup_nil in Hi.
    + by intros seg Hseg.
  - destruct (seg_final seg) as [u|] eqn:Hu; simpl.
    + destruct (Hslots 0 seg eq_refl) as (Hfin & _).
      specialize (Hfin u Hu). rewrite Nat.add_0_r in Hfin.
      destruct (final_unit_facts cfg n seg) as (Hid & Hstart & Hfinal).
      rewrite <- Hfin in Hid, Hstart, Hfinal.
      destruct (IH (S n)) as (Hids & Hall & Hlook & Hstop).
      { intros i seg' Hi. replace (S n + i) with (n + S i) by lia. by apply Hslots. }
      split; [f_equal; [exact Hid|exact Hids]|].
      split; [by intros u' [->|Hin]%elem_of_cons; [|apply Hall]|].
      split; [|done].
      intros [|i] u'; simpl; [|by apply Hlook].
      intros [= <-]. by exists seg.
    + split; [done|]. split; [|split].
      * intros u Hin. by apply elem_of_nil in Hin.
      * intros i u Hi. by rewrite lookup_nil in Hi.
      * by intros seg' [= <-].
Qed.

Lemma drain_ok (s : Session) :
  queue_ok s ->
  wf (snd (drain s)) /\ advances s (fst (drain s)) (snd (drain s)).
Proof.
  intros [Hslots Hdone]. unfold drain.
  set (finals := ready_finals (drop (next_final s) (segments s))).
  set (k := next_final s + length finals).
  destruct (ready_finals_spec (config s) (drop (next_final s) (segments s)) (next_final s))
    as (Hids & Hall & Hlook & Hstop).
  { intros i seg. rewrite lookup_drop. apply Hslots. }
  fold finals in Hids, Hall, Hlook, Hstop.
  assert (Hpassed : forall j, j < k ->
            exists seg, segments s !! j = Some seg /\ is_Some (seg_final seg)).
  { intros j Hj. destruct (decide (j < next_final s)) as [Hlt|Hge]; [by apply Hdone|].
    destruct (lookup_lt_is_Some_2 finals (j - next_final s)) as [u Hu]; [unfold k in Hj; lia|].
    destruct (Hlook _ _ Hu) as (seg & Hseg & Hfin & _).
    rewrite lookup_drop in Hseg.
    replace (next_final s + (j - next_final s)) with j in Hseg by lia.
    exists seg. split; [done|]. by eexists. }
  assert (Hhead : forall seg, segments s !! k = Some seg -> seg_final seg = None).
  { intros seg Hseg. apply Hstop. by rewrite lookup_drop. }
  assert (Hunits : forall u, u ∈ finals ->
            exists seg, segments s !! segment_id u = Some seg /\
              start_offset u = seg_start seg /\ seg_final seg = Some u /\
              next_final s <= segment_id u < k).
  { intros u (i & Hi)%list_elem_of_lookup_1.
    destruct (Hlook _ _ Hi) as (seg & Hseg & Hfin & Hstart).
    rewrite lookup_drop in Hseg.
    assert (Hidu : segment_id u = next_final s + i).
    { assert (Hfm : (segment_id <$> finals) !! i = Some (segment_id u))
        by by rewrite list_lookup_fmap, Hi.
      rewrite Hids in Hfm. by apply lookup_seq in Hfm as [-> _]. }
    rewrite Hidu. exists seg. pose proof (lookup_lt_Some _ _ _ Hi). unfold k.
    repeat split; [done..|lia|lia]. }
  assert (Hsize : k - next_final s = length finals) by (unfold k; lia).
  destruct (segments s !! k) as [segk|] eqn:Hk;
    [destruct (seg_held segk) as [hu|] eqn:Hheld|]; simpl.
  - destruct (Hslots _ _ Hk) as (Hf & Hiff & Hh).
    destruct (Hh _ Hheld) as (Hhid & Hhstart & Hhfin).
    pose proof (lookup_lt_Some _ _ _ Hk) as Hklt.
    split; [split; [split|]|split; [split; [done|split]|split; [|split]]]; simpl.
    + intros j segj [(<- & <- & _)|(Hne & Hj)]%list_lookup_insert_Some;
        [|by apply Hslots].
      split; [done|]. split; [done|]. done.
    + intros j Hj. destruct (Hpassed j Hj) as (seg & Hseg & Hsome).
      exists seg. split; [|done]. rewrite list_lookup_insert_ne; [done|lia].
    + intros seg. simpl. rewrite list_lookup_insert_eq by done.
      intros [= <-]. simpl. by apply Hhead.
    + lia.
    + intros j segj Hj. destruct (decide (k = j)) as [<-|Hne].
      * rewrite list_lookup_insert_eq by done. eexists. split; [done|].
        rewrite Hk in Hj. by injection Hj as <-.
      * exists segj. by rewrite list_lookup_insert_ne.
    + rewrite List.filter_app. simpl. rewrite Hhfin, app_nil_r.
      rewrite filter_all_true by done. by rewrite Hids, Hsize.
    + intros u [Hu| ->%list_elem_of_singleton]%elem_of_app.
      * destruct (Hunits u Hu) as (seg & Hseg & Hstart & Hfin & Hrange).
        exists seg. rewrite list_lookup_insert_ne by lia. done.
      * rewrite Hhid, list_lookup_insert_eq by done. eexists. split; [done|].
        simpl. split; [done|]. by rewrite Hhfin.
    + intros _. split.
      * rewrite fmap_app, Hids. simpl. rewrite Hhid.
        change (seq (next_final s) (length finals) ++ [k])
          with (seq (next_final s) (length finals) ++ [next_final s + length finals]).
        rewrite <- seq_S. apply StronglySorted_seq.
      * intros u [Hu| ->%list_elem_of_singleton]%elem_of_app.
        -- destruct (Hunits u Hu) as (_ & _ & _ & _ & Hrange). lia.
        -- rewrite Hhid. lia.
  - split; [split; [split|]|split; [split; [done|split]|split; [|split]]]; simpl.
    + done.
    + done.
    + intros seg Hseg. simpl in Hseg. rewrite Hk in Hseg. by apply Hhead.
    + lia.
    + intros j segj Hj. by exists segj.
    + rewrite filter_all_true by done. by rewrite Hids, Hsize.
    + intros u Hu. destruct (Hunits u Hu) as (seg & Hseg & Hstart & Hfin & Hrange).
      by exists seg.
    + intros _. split; [rewrite Hids; apply StronglySorted_seq|].
      intros u Hu. destruct (Hunits u Hu) as (_ & _ & _ & _ & Hrange). lia.
  - split; [split; [split|]|split; [split; [done|split]|split; [|split]]]; simpl.
    + done.
    + done.
    + intros seg Hseg. simpl in Hseg. by rewrite Hk in Hseg.
    + lia.
    + intros j segj Hj. by exists segj.
    + rewrite filter_all_true by done. by rewrite Hids, Hsize.
    + intros u Hu. destruct (Hunits u Hu) as (seg & Hseg & Hstart & Hfin & Hrange).
      by exists seg.
    + intros _. split; [rewrite Hids; apply StronglySorted_seq|].
      intros u Hu. destruct (Hunits u Hu) as (_ & _ & _ & _ & Hrange). lia.
Qed.

Lemma set_final_ok (s : Session) (id : nat) (seg : Segment) :
  queue_ok s ->
  segments s !! id = Some seg ->
  seg_state seg = PendingOffline ->
  queue_ok (with_segments
              (<[id := seg_set_final (final_unit (config s) id seg) seg]> (segments s)) s) /\
  extends s (with_segments
              (<[id := seg_set_final (final_unit (config s) id seg) seg]> (segments s)) s).
Proof.
  intros [Hslots Hdone] Hid Hst.
  pose proof (lookup_lt_Some _ _ _ Hid) as Hlt.
  assert (Hfin : seg_final seg = None).
  { eapply unfinished_slot_empty; [by apply Hslots|]. by rewrite Hst. }
  split; [split|split; [done|split]]; simpl.
  - intros j segj [(<- & <- & _)|(Hne & Hj)]%list_lookup_insert_Some;
      [|by apply Hslots].
    split; [by intros u [= <-]|]. split; [|done]. simpl. split; [done|by eexists].
  - intros j Hj. destruct (Hdone j Hj) as (segj & Hsegj & Hsome).
    destruct (decide (id = j)) as [<-|Hne].
    + rewrite list_lookup_insert_eq by done. eexists. split; [done|]. by eexists.
    + exists segj. by rewrite list_lookup_insert_ne.
  - lia.
  - intros j segj Hj. destruct (decide (id = j)) as [<-|Hne].
    + rewrite list_lookup_insert_eq by done. eexists. split; [done|].
      rewrite Hid in Hj. injection Hj as <-. split; [done|].
      intros u. by rewrite Hfin.
    + exists segj. by rewrite list_lookup_insert_ne.
Qed.

Lemma offline_complete_ok (id : nat) (s : Session) :
  wf s ->
  wf (snd (offline_complete id s)) /\
  advances s (fst (offline_complete id s)) (snd (offline_complete id s)).
Proof.
  intros Hwf. unfold offline_complete.
  destruct (segments s !! id) as [seg|] eqn:Hid; [|split; [done|apply advances_refl]].
  destruct (seg_state seg) eqn:Hst; try (split; [done|apply advances_refl]).
  destruct (set_final_ok s id seg (proj1 Hwf) Hid Hst) as [Hq1 Hext1].
  destruct (drain_ok _ Hq1) as [Hwf2 Hadv2].
  split; [done|].
  set (s1 := with_segments _ s) in *.
  assert (Hadv1 : advances s [] s1) by (split; [done|by apply emitted_nothing]).
  exact (advances_trans _ _ _ [] _ Hadv1 Hadv2).
Qed.

Lemma complete_pending_ok (s : Session) :
  wf s ->
  wf (snd (complete_pending s)) /\
  advances s (fst (complete_pending s)) (snd (complete_pending s)).
Proof.
  unfold complete_pending. generalize (seq 0 (length (segments s))) as ids.
  intros ids Hwf.
  assert (Hgen : forall (acc : list TranscriptUnit * Session),
    wf (snd acc) ->
    let r := fold_left
      (fun (acc : list TranscriptUnit * Session) (id : nat) =>
         let '(o, s') := offline_complete id (snd acc) in (fst acc ++ o, s'))
      ids acc in
    exists o, fst r = fst acc ++ o /\ wf (snd r) /\ advances (snd acc) o (snd r)).
  { induction ids as [|id rest IH]; intros [out s0] Hwf0; simpl in *.
    - exists []. rewrite app_nil_r. split; [done|]. split; [done|apply advances_refl].
    - destruct (offline_complete_ok id s0 Hwf0) as [Hwf1 Hadv1].
      destruct (offline_complete id s0) as [o1 s1]. simpl in *.
      destruct (IH (out ++ o1, s1) Hwf1) as (o2 & Ho2 & Hwf2 & Hadv2).
      exists (o1 ++ o2). simpl in *. rewrite Ho2, app_assoc.
      split; [done|]. split; [done|]. by eapply advances_trans. }
  destruct (Hgen ([], s) Hwf) as (o & Ho & Hwf' & Hadv). simpl in *.
  rewrite Ho. by split.
Qed.

Lemma close_session_ok (s s' : Session) (o : list TranscriptUnit) :
  wf s -> close_session s = Ok (o, s') -> wf s' /\ advances s o s'.
Proof.
  intros Hwf. unfold close_session.
  destruct (on_speech_end_ok (sample_offset s) s Hwf) as [Hwf1 Hext1].
  assert (Hadv1 : advances s [] (on_speech_end (sample_offset s) s)).
  { split; [done|]. apply emitted_nothing.
    unfold on_speech_end. by destruct (current_open _) as [[? ?]|]. }
  assert (Hgo :
    (let '(out, s2) :=
       if close_blocking (config s)
       then complete_pending (on_speech_end (sample_offset s) s)
       else drain (on_speech_end (sample_offset s) s) in
     Ok (out, with_state Closed s2)) = Ok (o, s') -> wf s' /\ advances s o s').
  { destruct (close_blocking (config s)).
    - destruct (complete_pending_ok _ Hwf1) as [Hwf2 Hadv2].
      destruct (complete_pending _) as [out s2]. intros [= <- <-].
      split; [exact Hwf2|].
      exact (advances_trans _ _ _ [] _ Hadv1 Hadv2).
    - destruct (drain_ok _ (proj1 Hwf1)) as [Hwf2 Hadv2].
      destruct (drain _) as [out s2]. intros [= <- <-].
      split; [exact Hwf2|].
      exact (advances_trans _ _ _ [] _ Hadv1 Hadv2). }
  destruct (state s); [exact Hgo..|done].
Qed.

Lemma step_ok (s : Session) (call : Call) :
  wf s ->
  wf (snd (step s call)) /\ advances s (fst (step s call)) (snd (step s call)).
Proof.
  intros Hwf. destruct call as [c|id|]; simpl.
  - destruct (push_audio s c) as [[o s']|e] eqn:Hpush;
      [by eapply push_audio_ok|split; [done|apply advances_refl]].
  - by apply offline_complete_ok.
  - destruct (close_session s) as [[o s']|e] eqn:Hclose;
      [by eapply close_session_ok|split; [done|apply advances_refl]].
Qed.

Lemma run_ok (calls : list Call) (s : Session) :
  wf s ->
  wf (snd (run calls s)) /\ advances s (fst (run calls s)) (snd (run calls s)).
Proof.
  revert s. induction calls as [|call rest IH]; intros s Hwf; simpl.
  - split; [done|apply advances_refl].
  - destruct (step_ok s call Hwf) as [Hwf1 Hadv1].
    destruct (step s call) as [o1 s1]. simpl in *.
    destruct (IH s1 Hwf1) as [Hwf2 Hadv2].
    destruct (run rest s1) as [o2 s2]. simpl in *.
    split; [done|]. by eapply advances_trans.
Qed.

Lemma open_session_fresh (cfg : Config) (s0 : Session) :
  open_session cfg = Ok s0 ->
  wf s0 /\ config s0 = cfg /\ next_final s0 = 0 /\ segments s0 = [] /\
  state s0 = Idle /\ fx_state s0 = fx_init /\ vad_state s0 = vad_init.
Proof.
  unfold open_session.
  destruct ((0 <? chunk_size cfg)%N && known_profile (profile cfg)); [|done].
  intros [= <-]. simpl. split; [|done].
  split; [split|].
  - by intros id seg Hid.
  - simpl. intros id Hid. lia.
  - by intros seg Hseg.
Qed.

(** ** Order of emission *)

Lemma StronglySorted_lookup_le (l : list N) (i j : nat) (a b : N) :
  StronglySorted N.le l -> i <= j -> l !! i = Some a -> l !! j = Some b ->
  (a <= b)%N.
Proof.
  intros Hsorted. revert i j.
  induction Hsorted as [|x l Hsorted IH Hall]; intros i j Hij Hi Hj; [done|].
  destruct i as [|i], j as [|j]; simpl in *; try lia.
  - injection Hi as <-. injection Hj as <-. lia.
  - injection Hi as <-. rewrite Forall_forall in Hall.
    apply Hall. by eapply list_elem_of_lookup_2.
  - apply (IH i j); [lia|done..].
Qed.

Lemma offsets_follow_ids (starts : list N) (out : list TranscriptUnit) :
  StronglySorted N.le starts ->
  StronglySorted le (segment_id <$> out) ->
  (forall u, u ∈ out -> starts !! segment_id u = Some (start_offset u)) ->
  StronglySorted N.le (start_offset <$> out).
Proof.
  intros Hstarts. induction out as [|u rest IH]; intros Hids Hlook; [constructor|].
  rewrite fmap_cons in Hids. apply StronglySorted_cons in Hids as [Hall Hids].
  rewrite fmap_cons. apply StronglySorted_cons. split.
  - apply Forall_forall. intros b (v & -> & Hv)%list_elem_of_fmap.
    rewrite Forall_forall in Hall.
    apply (StronglySorted_lookup_le starts (segment_id u) (segment_id v));
      [done| |apply Hlook; by left|apply Hlook; by right].
    apply Hall. by apply list_elem_of_fmap_2.
  - apply IH; [done|]. intros v Hv. apply Hlook. by right.
Qed.

Lemma filter_elem_of {A : Type} (f : A -> bool) (l : list A) (x : A) :
  x ∈ List.filter f l <-> x ∈ l /\ f x = true.
Proof. rewrite !list_elem_of_In. apply filter_In. Qed.

(** C4 as amended: final units leave once per Segment and in Segment
    order, whatever the configuration; with allow_unordered_partials off,
    all units leave in Segment order. When the VAD reported the Segment
    starts in non-decreasing order, the same holds of the start offsets. *)
Theorem emission_order (cfg : Config) (s0 : Session) (calls : list Call) :
  open_session cfg = Ok s0 ->
  NoDup (segment_id <$> List.filter finality (fst (run calls s0))) /\
  StronglySorted le (segment_id <$> List.filter finality (fst (run calls s0))) /\
  (allow_unordered_partials cfg = false ->
     StronglySorted le (segment_id <$> fst (run calls s0))) /\
  (StronglySorted N.le (seg_start <$> segments (snd (run calls s0))) ->
     StronglySorted N.le (start_offset <$> List.filter finality (fst (run calls s0))) /\
     (allow_unordered_partials cfg = false ->
        StronglySorted N.le (start_offset <$> fst (run calls s0)))).
Proof.
  intros (Hwf0 & Hcfg & Hnext0 & _)%open_session_fresh.
  destruct (run_ok calls s0 Hwf0) as [Hwf [Hext (Hfinals & Hunits & Horder)]].
  rewrite Hcfg in Horder. rewrite Hnext0 in Hfinals.
  assert (Hlook : forall u, u ∈ fst (run calls s0) ->
            (seg_start <$> segments (snd (run calls s0))) !! segment_id u
            = Some (start_offset u)).
  { intros u Hu. destruct (Hunits u Hu) as (seg & Hseg & Hstart & _).
    by rewrite list_lookup_fmap, Hseg, Hstart. }
  split; [rewrite Hfinals; apply NoDup_seq|].
  split; [rewrite Hfinals; apply StronglySorted_seq|].
  split; [intros Hord; by apply Horder|].
  intros Hstarts. split.
  - apply (offsets_follow_ids _ _ Hstarts).
    + rewrite Hfinals. apply StronglySorted_seq.
    + intros u [Hu _]%filter_elem_of. by apply Hlook.
  - intros Hord. apply (offsets_follow_ids _ _ Hstarts); [|done].
    by apply Horder.
Qed.

(** ** Failure of the offline pass *)

Lemma drain_fx (s : Session) : fx_state (snd (drain s)) = fx_state s.
Proof.
  unfold drain.
  destruct (segments s !! _) as [seg|]; [destruct (seg_held seg)|]; reflexivity.
Qed.

Lemma offline_complete_fx (id : nat) (s : Session) :
  fx_state (snd (offline_complete id s)) = fx_state s.
Proof.
  unfold offline_complete.
  destruct (segments s !! id) as [seg|]; [|reflexivity].
  destruct (seg_state seg); try reflexivity.
  by rewrite drain_fx.
Qed.

Lemma push_audio_accepts (s : Session) (c : AudioChunk) :
  (exists r, push_audio s c = Ok r) <->
  state s <> Closed /\ is_Some (extract c (fx_state s)).
Proof.
  unfold push_audio. split.
  - intros [r Hr]. destruct (state s); try done.
    all: destruct (extract c (fx_state s)) as [[frames fx]|]; [|done].
    all: split; [done|by eexists].
  - intros [Hst [[frames fx] Hx]]. rewrite Hx.
    destruct (state s); try done.
    all: simpl; destruct (fold_left feed_frame frames _) as [[out lim] s2]; by eexists.
Qed.

(** Every final unit a caller receives is the one stored for its Segment,
    and it is the unit [final_unit] describes. *)
Lemma emitted_final_unit (cfg : Config) (s0 : Session) (calls : list Call)
    (u : TranscriptUnit) :
  open_session cfg = Ok s0 ->
  u ∈ fst (run calls s0) ->
  finality u = true ->
  exists seg,
    segments (snd (run calls s0)) !! segment_id u = Some seg /\
    u = final_unit cfg (segment_id u) seg.
Proof.
  intros (Hwf0 & Hcfg & _)%open_session_fresh Hu Hfin.
  destruct (run_ok calls s0 Hwf0) as [[[Hslots _] _] [(Hc & _) (_ & Hunits & _)]].
  destruct (Hunits u Hu) as (seg & Hseg & _ & Hslot).
  exists seg. split; [done|].
  destruct (Hslots _ _ Hseg) as (Hfinal & _).
  rewrite <- Hcfg, <- Hc. by apply Hfinal, Hslot.
Qed.

(** ** Chunking *)

Lemma shape_open_of (segs : list Segment) :
  shape_open (shape_of segs) =
  (fun r : nat * Segment => (fst r, seg_frames (snd r))) <$> current_open segs.
Proof.
  unfold shape_open, current_open, shape_of.
  rewrite fmap_last, length_fmap.
  destruct (last segs) as [seg|]; [|done]. simpl. unfold is_open.
  by destruct (seg_state seg).
Qed.

Lemma shape_on_speech_continue (f : Frame) (limited : bool) (s : Session) :
  shape_of (segments (snd (on_speech_continue f limited s)))
    = shape_event f (shape_of (segments s)) SpeechContinue /\
  same_stream s (snd (on_speech_continue f limited s)).
Proof.
  unfold on_speech_continue.
  pose proof (shape_open_of (segments s)) as Hso.
  destruct (current_open (segments s)) as [[id seg]|] eqn:Hopen; simpl in Hso.
  2: { simpl. by rewrite Hso. }
  apply current_open_Some in Hopen as (Hid & Hst & _).
  assert (Hins : forall seg',
    is_open seg' = true -> seg_frames seg' = seg_frames seg ++ [f] ->
    shape_of (<[id := seg']> (segments s))
      = shape_event f (shape_of (segments s)) SpeechContinue).
  { intros seg' Ho Hf. simpl. rewrite Hso.
    unfold shape_of. by rewrite list_fmap_insert, Ho, Hf. }
  assert (Ho : is_open seg = true) by (unfold is_open; by rewrite Hst).
  destruct (online_pass (config s) && negb limited);
    [|split; [by apply Hins|done]].
  destruct (run_pass _ _ _) as [h|]; [|split; [by apply Hins|done]].
  destruct (may_emit_online s id); (split; [by apply Hins|done]).
Qed.

Lemma shape_on_speech_end (f : Frame) (end_off offset : N) (s : Session) :
  shape_of (segments (on_speech_end end_off s))
    = shape_event f (shape_of (segments s)) (SpeechEnd offset) /\
  same_stream s (on_speech_end end_off s).
Proof.
  unfold on_speech_end.
  pose proof (shape_open_of (segments s)) as Hso.
  destruct (current_open (segments s)) as [[id seg]|] eqn:Hopen; simpl in Hso.
  2: { simpl. by rewrite Hso. }
  split; [|done]. simpl. rewrite Hso.
  unfold shape_of. by rewrite list_fmap_insert.
Qed.

Lemma shape_handle_event (f : Frame)
    (acc : list TranscriptUnit * bool * Session) (ev : VadEvent) :
  shape_of (segments (snd (handle_event f acc ev)))
    = shape_event f (shape_of (segments (snd acc))) ev /\
  same_stream (snd acc) (snd (handle_event f acc ev)).
Proof.
  destruct acc as [[out limited] s]. destruct ev as [offset| |offset|]; simpl.
  - unfold shape_of. by rewrite fmap_app.
  - pose proof (shape_on_speech_continue f limited s) as H.
    by destruct (on_speech_continue f limited s) as [[o limited'] s'].
  - apply (shape_on_speech_end f offset offset s).
  - apply (shape_on_speech_end f (sample_offset s) 0%N s).
Qed.

Lemma shape_fold_events (f : Frame) (evs : list VadEvent)
    (acc : list TranscriptUnit * bool * Session) :
  shape_of (segments (snd (fold_left (handle_event f) evs acc)))
    = fold_left (shape_event f) evs (shape_of (segments (snd acc))) /\
  same_stream (snd acc) (snd (fold_left (handle_event f) evs acc)).
Proof.
  revert acc. induction evs as [|ev rest IH]; intros acc; [done|].
  change (fold_left (handle_event f) (ev :: rest) acc)
    with (fold_left (handle_event f) rest (handle_event f acc ev)).
  destruct (IH (handle_event f acc ev)) as (Hsh & Hv & Hx & Hst).
  destruct (shape_handle_event f acc ev) as (Hsh1 & Hv1 & Hx1 & Hst1).
  rewrite Hsh, Hsh1. split; [done|]. unfold same_stream. by rewrite Hv, Hx, Hst.
Qed.

Lemma shape_feed_frame (acc : list TranscriptUnit * bool * Session) (f : Frame) :
  (vad_state (snd (feed_frame acc f)), shape_of (segments (snd (feed_frame acc f))))
    = assemble_frame (vad_state (snd acc), shape_of (segments (snd acc))) f /\
  fx_state (snd (feed_frame acc f)) = fx_state (snd acc) /\
  state (snd (feed_frame acc f)) = state (snd acc).
Proof.
  destruct acc as [[out limited] s]. unfold feed_frame, assemble_frame. simpl.
  destruct (advance [f] (vad_state s)) as [evs vs].
  destruct (shape_fold_events f evs (out, limited, with_vad vs s))
    as (Hsh & Hv & Hx & Hst).
  simpl in *. by rewrite Hsh, Hv.
Qed.

Lemma shape_fold_frames (frames : list Frame)
    (acc : list TranscriptUnit * bool * Session) :
  (vad_state (snd (fold_left feed_frame frames acc)),
   shape_of (segments (snd (fold_left feed_frame frames acc))))
    = assemble frames (vad_state (snd acc), shape_of (segments (snd acc))) /\
  fx_state (snd (fold_left feed_frame frames acc)) = fx_state (snd acc) /\
  state (snd (fold_left feed_frame frames acc)) = state (snd acc).
Proof.
  revert acc. induction frames as [|f rest IH]; intros acc; [done|].
  change (fold_left feed_frame (f :: rest) acc)
    with (fold_left feed_frame rest (feed_frame acc f)).
  destruct (IH (feed_frame acc f)) as (Hsh & Hx & Hst).
  destruct (shape_feed_frame acc f) as (Hsh1 & Hx1 & Hst1).
  rewrite Hsh, Hsh1, Hx, Hx1, Hst, Hst1. done.
Qed.

Lemma shape_push_audio (s s' : Session) (c : AudioChunk) (o : list TranscriptUnit) :
  push_audio s c = Ok (o, s') ->
  exists frames,
    extract c (fx_state s) = Some (frames, fx_state s') /\
    (vad_state s', shape_of (segments s'))
      = assemble frames (vad_state s, shape_of (segments s)) /\
    state s' = Streaming.
Proof.
  unfold push_audio.
  assert (Hgo :
    match extract c (fx_state s) with
    | Some (frames, fx) =>
        let s1 :=
          {| state := Streaming; config := config s;
             sample_offset := sample_offset s + N.of_nat (length (samples c));
             fx_state := fx; vad_state := vad_state s;
             segments := segments s; next_final := next_final s |} in
        let '(out, _, s2) := fold_left feed_frame frames ([], false, s1) in
        Ok (out, s2)
    | None => Fail AudioFormatError
    end = Ok (o, s') ->
    exists frames,
      extract c (fx_state s) = Some (frames, fx_state s') /\
      (vad_state s', shape_of (segments s'))
        = assemble frames (vad_state s, shape_of (segments s)) /\
      state s' = Streaming).
  { destruct (extract c (fx_state s)) as [[frames fx]|]; [|done]. simpl.
    match goal with |- context [fold_left feed_frame frames ?a] =>
      destruct (shape_fold_frames frames a) as (Hsh & Hx & Hst);
      destruct (fold_left feed_frame frames a) as [[out lim] s2]
    end.
    simpl in *. intros [= <- <-]. exists frames. by rewrite Hx, Hsh, Hst. }
  destruct (state s); [exact Hgo..|done].
Qed.

Lemma shape_drain (s : Session) :
  shape_of (segments (snd (drain s))) = shape_of (segments s) /\
  same_stream s (snd (drain s)).
Proof.
  unfold drain.
  destruct (segments s !! _) as [seg|] eqn:Hk; [destruct (seg_held seg)|]; try done.
  split; [|done]. simpl. unfold shape_of. rewrite list_fmap_insert.
  apply list_insert_id. by rewrite list_lookup_fmap, Hk.
Qed.

Lemma shape_offline_complete (id : nat) (s : Session) :
  shape_of (segments (snd (offline_complete id s))) = shape_of (segments s) /\
  same_stream s (snd (offline_complete id s)).
Proof.
  unfold offline_complete.
  destruct (segments s !! id) as [seg|] eqn:Hid; [|done].
  destruct (seg_state seg) eqn:Hst; try done.
  match goal with |- context [drain ?s1] =>
    destruct (shape_drain s1) as (Hsh & Hstream) end.
  rewrite Hsh. split; [|exact Hstream]. simpl.
  unfold shape_of. rewrite list_fmap_insert.
  apply list_insert_id. rewrite list_lookup_fmap, Hid. simpl.
  unfold is_open. simpl. by rewrite Hst.
Qed.

Lemma shape_complete_pending (s : Session) :
  shape_of (segments (snd (complete_pending s))) = shape_of (segments s) /\
  same_stream s (snd (complete_pending s)).
Proof.
  unfold complete_pending. generalize (seq 0 (length (segments s))) as ids.
  intros ids. generalize (@nil TranscriptUnit) as out. revert s.
  induction ids as [|id rest IH]; intros s out; [done|]. simpl.
  destruct (shape_offline_complete id s) as (Hsh1 & Hv1 & Hx1 & Hst1).
  destruct (offline_complete id s) as [o1 s1]. simpl in *.
  destruct (IH s1 (out ++ o1)) as (Hsh & Hv & Hx & Hst).
  rewrite Hsh, Hsh1. split; [done|]. unfold same_stream. by rewrite Hv, Hx, Hst.
Qed.

Lemma frames_of_shape (s : Session) : frames_of s = snd <$> shape_of (segments s).
Proof. unfold frames_of, shape_of. by rewrite <- list_fmap_compose. Qed.

Lemma frames_on_speech_end (end_off : N) (s : Session) :
  frames_of (on_speech_end end_off s) = frames_of s.
Proof.
  unfold on_speech_end, frames_of.
  destruct (current_open (segments s)) as [[id seg]|] eqn:Hopen; [|done].
  apply current_open_Some in Hopen as (Hid & _). simpl.
  rewrite list_fmap_insert. apply list_insert_id. by rewrite list_lookup_fmap, Hid.
Qed.

Lemma frames_close_session (s s' : Session) (o : list TranscriptUnit) :
  close_session s = Ok (o, s') -> frames_of s' = frames_of s /\ state s' = Closed.
Proof.
  intros Hclose. split; [|by eapply close_session_closes].
  revert Hclose. unfold close_session.
  assert (Hgo :
    (let '(out, s2) :=
       if close_blocking (config s)
       then complete_pending (on_speech_end (sample_offset s) s)
       else drain (on_speech_end (sample_offset s) s) in
     Ok (out, with_state Closed s2)) = Ok (o, s') -> frames_of s' = frames_of s).
  { rewrite <- (frames_on_speech_end (sample_offset s) s).
    destruct (close_blocking (config s)).
    - destruct (shape_complete_pending (on_speech_end (sample_offset s) s)) as [Hsh _].
      destruct (complete_pending _) as [out s2]. intros [= <- <-].
      rewrite !frames_of_shape. simpl in *. by rewrite Hsh.
    - destruct (shape_drain (on_speech_end (sample_offset s) s)) as [Hsh _].
      destruct (drain _) as [out s2]. intros [= <- <-].
      rewrite !frames_of_shape. simpl in *. by rewrite Hsh. }
  destruct (state s); [exact Hgo..|done].
Qed.

Lemma run_cons (call : Call) (rest : list Call) (s : Session) :
  run (call :: rest) s =
  (fst (step s call) ++ fst (run rest (snd (step s call))),
   snd (run rest (snd (step s call)))).
Proof.
  change (run (call :: rest) s)
    with (let '(o, s1) := step s call in
          let '(os, s2) := run rest s1 in (o ++ os, s2)).
  destruct (step s call) as [o s1]. simpl. by destruct (run rest s1).
Qed.

Lemma frames_closed (calls : list Call) (s : Session) :
  state s = Closed -> frames_of (snd (run calls s)) = frames_of s.
Proof.
  revert s. induction calls as [|call rest IH]; intros s Hc; [done|].
  rewrite run_cons. simpl. rewrite IH by by apply step_closed.
  destruct call as [c|id|]; simpl.
  - by rewrite push_audio_closed.
  - rewrite !frames_of_shape. by destruct (shape_offline_complete id s) as [-> _].
  - by rewrite close_session_closed.
Qed.

(** The frames the Segments of a session hold are those of the audio it
    was given, assembled in one go. *)
Lemma frames_run (calls : list Call) (s : Session) :
  state s <> Closed ->
  frames_of (snd (run calls s)) =
  snd <$> snd (assemble (extract_all (audio_of calls) (fx_state s))
                        (vad_state s, shape_of (segments s))).
Proof.
  revert s. induction calls as [|call rest IH]; intros s Hopen.
  - simpl. apply frames_of_shape.
  - rewrite run_cons. simpl snd. destruct call as [c|id|]; simpl.
    + destruct (push_audio s c) as [[o s1]|e] eqn:Hpush; simpl.
      * destruct (shape_push_audio _ _ _ _ Hpush) as (frames & Hx & Hsh & Hst).
        rewrite Hx. unfold assemble. rewrite fold_left_app.
        fold (assemble frames (vad_state s, shape_of (segments s))).
        rewrite <- Hsh. apply IH. by rewrite Hst.
      * assert (Hnone : extract c (fx_state s) = None).
        { destruct (extract c (fx_state s)) as [x|] eqn:Hx; [|done].
          destruct (proj2 (push_audio_accepts s c)) as [r Hr]; [by split|].
          by rewrite Hr in Hpush. }
        rewrite Hnone. by apply IH.
    + destruct (shape_offline_complete id s) as (Hsh & Hv & Hx & Hst).
      rewrite IH by by rewrite Hst. by rewrite Hsh, Hv, Hx.
    + destruct (close_session s) as [[o s1]|e] eqn:Hclose; simpl.
      * destruct (frames_close_session _ _ _ Hclose) as [Hf Hc].
        rewrite frames_closed by done. rewrite Hf. apply frames_of_shape.
      * exfalso. revert Hclose. unfold close_session.
        destruct (state s); try done.
        all: by destruct (if close_blocking (config s) then _ else _).
Qed.

Lemma extract_all_whole (cs : list AudioChunk) :
  resumable ->
  cs <> [] ->
  forall (whole : AudioChunk) (fx fx' : FxState) (frames : list Frame),
    samples whole = concat (samples <$> cs) ->
    extract whole fx = Some (frames, fx') ->
    extract_all cs fx = frames.
Proof.
  intros [Hsame Hseam]. induction cs as [|c cs IH]; [done|]. intros _.
  intros whole fx fx' frames Hsplit Hwhole.
  destruct cs as [|c' cs'].
  - simpl in *. rewrite app_nil_r in Hsplit.
    rewrite <- (Hsame _ _ fx Hsplit), Hwhole. by rewrite app_nil_r.
  - set (tail := {| samples := concat (samples <$> (c' :: cs'));
                    seq_no := 0; chunk_offset := 0 |}).
    rewrite (Hseam whole c tail fx) in Hwhole by done.
    change (extract_all (c :: c' :: cs') fx)
      with (match extract c fx with
            | Some (fs, fx1) => fs ++ extract_all (c' :: cs') fx1
            | None => extract_all (c' :: cs') fx
            end).
    destruct (extract c fx) as [[f1 fx1]|]; [|done]. simpl in Hwhole.
    destruct (extract tail fx1) as [[f2 fx2]|] eqn:Htail; [|done].
    simpl in Hwhole. injection Hwhole as <- <-.
    f_equal. by apply (IH ltac:(done) tail fx1 fx2 f2).
Qed.

(** C7: the same audio given in one chunk or cut into many yields, for
    every Segment, the same outcome of the offline pass and the same final
    offline text, whenever the extractor is resumable across chunk seams;
    the VAD then detects the same boundaries. *)
Theorem chunking_keeps_final_text
    (cfg : Config) (s0 : Session) (one many : list Call) (whole : AudioChunk)
    (u1 u2 : TranscriptUnit) :
  resumable ->
  open_session cfg = Ok s0 ->
  audio_of one = [whole] ->
  samples whole = concat (samples <$> audio_of many) ->
  u1 ∈ fst (run one s0) ->
  u2 ∈ fst (run many s0) ->
  finality u1 = true ->
  finality u2 = true ->
  segment_id u1 = segment_id u2 ->
  degraded u1 = degraded u2 /\ (degraded u1 = false -> text u1 = text u2).
Proof.
  intros Hres Hopen Hone Hsplit Hu1 Hu2 Hfin1 Hfin2 Hid.
  destruct (emitted_final_unit cfg s0 one u1 Hopen Hu1 Hfin1) as (seg1 & Hseg1 & Heq1).
  destruct (emitted_final_unit cfg s0 many u2 Hopen Hu2 Hfin2) as (seg2 & Hseg2 & Heq2).
  apply open_session_fresh in Hopen as (_ & _ & _ & Hsegs & Hst & Hfx & Hvad).
  assert (Hidle : state s0 <> Closed) by by rewrite Hst.
  pose proof (frames_run one s0 Hidle) as Hf1.
  pose proof (frames_run many s0 Hidle) as Hf2.
  rewrite Hone, Hfx, Hvad, Hsegs in Hf1. rewrite Hfx, Hvad, Hsegs in Hf2.
  assert (Hl1 : frames_of (snd (run one s0)) !! segment_id u1 = Some (seg_frames seg1))
    by (unfold frames_of; by rewrite list_lookup_fmap, Hseg1).
  assert (Hl2 : frames_of (snd (run many s0)) !! segment_id u2 = Some (seg_frames seg2))
    by (unfold frames_of; by rewrite list_lookup_fmap, Hseg2).
  assert (Hframes : seg_frames seg1 = seg_frames seg2).
  { simpl in Hf1.
    destruct (extract whole fx_init) as [[frames fx']|] eqn:Hwhole.
    2: { simpl in Hf1. rewrite Hf1 in Hl1. by rewrite lookup_nil in Hl1. }
    rewrite app_nil_r in Hf1.
    destruct (audio_of many) as [|c cs] eqn:Hmany.
    { simpl in Hf2. rewrite Hf2 in Hl2. by rewrite lookup_nil in Hl2. }
    assert (Hne : c :: cs <> []) by done.
    rewrite (extract_all_whole (c :: cs) Hres Hne whole _ _ _ Hsplit Hwhole) in Hf2.
    assert (Hsame : frames_of (snd (run one s0)) = frames_of (snd (run many s0)))
      by (etrans; [exact Hf1|symmetry; exact Hf2]).
    rewrite Hsame, Hid, Hl2 in Hl1. by injection Hl1. }
  rewrite Heq1, Heq2. unfold final_unit. rewrite Hframes.
  destruct (run_pass cfg offline (seg_frames seg2)); by simpl.
Qed.

(** ** What the caller heard before a degraded final unit *)

Lemma last_online_unit_app (id : nat) (out o : list TranscriptUnit) :
  last_online_unit id (out ++ o) =
  match last_online_unit id o with
  | Some v => Some v
  | None => last_online_unit id out
  end.
Proof. unfold last_online_unit. rewrite List.filter_app. apply last_app. Qed.

Lemma last_online_unit_elem (id : nat) (out : list TranscriptUnit) (v : TranscriptUnit) :
  last_online_unit id out = Some v ->
  v ∈ out /\ segment_id v = id /\ finality v = false.
Proof.
  intros Hlast%last_Some_elem_of. apply filter_elem_of in Hlast as [Hin Hon].
  unfold is_online_of in Hon. apply andb_prop in Hon as [Hid Hfin].
  apply Nat.eqb_eq in Hid. apply negb_true_iff in Hfin. done.
Qed.

Lemma last_online_unit_none (id : nat) (o : list TranscriptUnit) :
  (forall v, v ∈ o -> is_online_of id v = false) -> last_online_unit id o = None.
Proof.
  intros Hall. unfold last_online_unit.
  replace (List.filter (is_online_of id) o) with (@nil TranscriptUnit); [done|].
  induction o as [|v o IH]; [done|]. simpl.
  rewrite (Hall v) by left. apply IH. intros w Hw. apply Hall. by right.
Qed.

Lemma bounded_step (out o : list TranscriptUnit) (s s' : Session) :
  bounded out s -> advances s o s' -> bounded (out ++ o) s'.
Proof.
  intros [Hlen Hhead] [(Hcfg & Hnext & Hsegs) (_ & Hunits & Horder)]. split.
  - intros v [Hv|Hv]%elem_of_app.
    + destruct (lookup_lt_is_Some_2 (segments s) (segment_id v)) as [seg Hseg];
        [by apply Hlen|].
      destruct (Hsegs _ _ Hseg) as (seg' & Hseg' & _). by eapply lookup_lt_Some.
    + destruct (Hunits v Hv) as (seg' & Hseg' & _). by eapply lookup_lt_Some.
  - rewrite Hcfg. intros Hord v [Hv|Hv]%elem_of_app.
    + specialize (Hhead Hord v Hv). lia.
    + destruct (Horder Hord) as [_ Hb]. specialize (Hb v Hv). lia.
Qed.

Lemma follows_refl (s : Session) : follows s [] s.
Proof. intros out0 _ Hok. by rewrite app_nil_r. Qed.

Lemma follows_trans (s s1 s2 : Session) (o1 o2 : list TranscriptUnit) :
  advances s o1 s1 -> follows s o1 s1 -> follows s1 o2 s2 ->
  follows s (o1 ++ o2) s2.
Proof.
  intros Hadv H1 H2 out0 Hb Hok. rewrite app_assoc.
  apply H2; [by eapply bounded_step|by apply H1].
Qed.

(** Replacing a Segment by one with the same last online Hypothesis. *)
Lemma online_ok_update (s : Session) (id : nat) (seg seg' : Segment)
    (out0 : list TranscriptUnit) :
  segments s !! id = Some seg ->
  seg_hyp seg' = seg_hyp seg ->
  held_ok s id seg' ->
  online_ok out0 s ->
  online_ok out0 (with_segments (<[id := seg']> (segments s)) s).
Proof.
  intros Hid Hhyp Hheld [Hh Hlast]. split.
  - intros j segj [(<- & <- & _)|(Hne & Hj)]%list_lookup_insert_Some;
      [exact Hheld|by apply Hh].
  - intros j segj v [(<- & <- & _)|(Hne & Hj)]%list_lookup_insert_Some Hv; simpl.
    + rewrite (Hlast _ _ _ Hid Hv). unfold last_online_text. by rewrite Hhyp.
    + by eapply Hlast.
Qed.

Lemma on_speech_start_follows (offset : N) (s : Session) :
  follows s [] (on_speech_start offset s).
Proof.
  intros out0 [Hlen _] [Hh Hlast]. rewrite app_nil_r. unfold on_speech_start. split.
  - intros j segj. simpl.
    intros [(_ & Hj)|(-> & <-)]%lookup_snoc_Some; [by apply Hh|].
    by intros hu.
  - intros j segj v. simpl.
    intros [(_ & Hj)|(-> & <-)]%lookup_snoc_Some Hv; [by eapply Hlast|].
    apply last_online_unit_elem in Hv as (Hin & Hid & _).
    specialize (Hlen v Hin). lia.
Qed.

Lemma on_speech_end_follows (end_off : N) (s : Session) :
  follows s [] (on_speech_end end_off s).
Proof.
  intros out0 _ Hok. rewrite app_nil_r. unfold on_speech_end.
  destruct (current_open (segments s)) as [[id seg]|] eqn:Hopen; [|done].
  apply current_open_Some in Hopen as (Hid & _).
  apply (online_ok_update s id seg); [done|done| |done].
  exact (proj1 Hok _ _ Hid).
Qed.

Lemma passed_are_finalized (s : Session) (id : nat) :
  wf s -> id <= next_final s ->
  forallb is_finalized (take id (segments s)) = true.
Proof.
  intros [[Hslots Hdone] _] Hle. apply forallb_forall.
  intros seg (i & Hi)%list_elem_of_In%list_elem_of_lookup_1.
  apply lookup_take_Some in Hi as [Hi Hlt].
  destruct (Hdone i) as (seg' & Hseg' & Hsome); [lia|].
  rewrite Hi in Hseg'. injection Hseg' as <-.
  destruct (Hslots _ _ Hi) as (_ & Hiff & _).
  unfold is_finalized. by rewrite (proj1 Hiff Hsome).
Qed.

Lemma on_speech_continue_follows (f : Frame) (limited : bool) (s : Session) :
  wf s ->
  follows s (fst (fst (on_speech_continue f limited s)))
            (snd (on_speech_continue f limited s)).
Proof.
  intros Hwf out0 Hb Hok. unfold on_speech_continue.
  destruct (current_open (segments s)) as [[id seg]|] eqn:Hopen;
    [|by rewrite app_nil_r].
  apply current_open_Some in Hopen as (Hid & Hst & _).
  assert (Hnf : seg_state seg <> Finalized) by by rewrite Hst.
  pose proof (unfinished_slot_empty _ _ _ (proj1 (proj1 Hwf) _ _ Hid) Hnf) as Hfin.
  pose proof (proj1 Hok _ _ Hid) as Hheld.
  assert (Hquiet : forall seg',
    seg_hyp seg' = seg_hyp seg -> seg_held seg' = seg_held seg ->
    seg_final seg' = seg_final seg ->
    online_ok (out0 ++ []) (with_segments (<[id := seg']> (segments s)) s)).
  { intros seg' Hhyp' Hheld' Hfin'. rewrite app_nil_r.
    apply (online_ok_update s id seg); [done|done| |done].
    intros hu Hhu. rewrite Hheld' in Hhu.
    destruct (Hheld hu Hhu) as (Htext & _ & Hord & Hlt).
    unfold last_online_text in *. by rewrite Hhyp', Hfin', Hfin. }
  destruct (online_pass (config s) && negb limited); [|by apply Hquiet].
  destruct (run_pass (config s) online (seg_frames (seg_push_frame f seg)))
    as [h|]; [|by apply Hquiet].
  destruct (may_emit_online s id) eqn:Hmay; simpl.
  - assert (Hnone : seg_held seg = None).
    { destruct (seg_held seg) as [hu|] eqn:Hhu; [|done].
      destruct (Hheld hu Hhu) as (_ & _ & Hord & Hlt).
      unfold may_emit_online in Hmay. rewrite Hord in Hmay. simpl in Hmay.
      pose proof (unfinished_is_head s id seg Hwf Hid Hnf Hmay). lia. }
    destruct Hok as [Hh Hlast]. split.
    + intros j segj [(<- & <- & _)|(Hne & Hj)]%list_lookup_insert_Some;
        [|by apply Hh].
      intros hu. simpl. by rewrite Hnone.
    + intros j segj v Hj. rewrite last_online_unit_app.
      unfold last_online_unit at 1. simpl. unfold is_online_of at 1. simpl.
      apply list_lookup_insert_Some in Hj as [(<- & <- & _)|(Hne & Hj)].
      * rewrite Nat.eqb_refl. simpl. by intros [= <-].
      * replace (Nat.eqb id j) with false by (symmetry; by apply Nat.eqb_neq).
        simpl. by apply Hlast.
  - unfold may_emit_online in Hmay. apply orb_false_iff in Hmay as [Hord Hsome].
    assert (Hlt : next_final s < id).
    { destruct (decide (next_final s < id)) as [|Hge]; [done|].
      rewrite passed_are_finalized in Hsome; [done|done|lia]. }
    rewrite app_nil_r. destruct Hok as [Hh Hlast]. split.
    + intros j segj [(<- & <- & _)|(Hne & Hj)]%list_lookup_insert_Some;
        [|by apply Hh].
      intros hu. simpl. by intros [= <-].
    + intros j segj v [(<- & <- & _)|(Hne & Hj)]%list_lookup_insert_Some Hv;
        [|by eapply Hlast].
      apply last_online_unit_elem in Hv as (Hin & Hidv & _).
      pose proof (proj2 Hb Hord v Hin). lia.
Qed.

Lemma drain_follows (s : Session) :
  queue_ok s -> follows s (fst (drain s)) (snd (drain s)).
Proof.
  intros [Hslots Hdone] out0 _ [Hh Hlast]. unfold drain.
  set (finals := ready_finals (drop (next_final s) (segments s))).
  set (k := next_final s + length finals).
  destruct (ready_finals_spec (config s) (drop (next_final s) (segments s)) (next_final s))
    as (_ & Hall & Hlook & _).
  { intros i seg. rewrite lookup_drop. apply Hslots. }
  fold finals in Hall, Hlook.
  assert (Hquiet : forall j, last_online_unit j finals = None).
  { intros j. apply last_online_unit_none. intros v Hv.
    unfold is_online_of. rewrite (Hall v Hv). apply andb_false_r. }
  assert (Hbeyond : forall j segj hu,
            segments s !! j = Some segj -> seg_held segj = Some hu ->
            text hu = last_online_text (config s) segj /\ seg_final segj = None /\
            allow_unordered_partials (config s) = false /\ k <= j).
  { intros j segj hu Hj Hhu.
    destruct (Hh _ _ Hj hu Hhu) as (Htext & Hfin & Hord & Hlt).
    repeat split; try done.
    destruct (decide (k <= j)) as [|Hjk]; [done|]. exfalso.
    destruct (lookup_lt_is_Some_2 finals (j - next_final s)) as [u Hu];
      [unfold k in Hjk; lia|].
    destruct (Hlook _ _ Hu) as (seg & Hseg & Hf & _).
    rewrite lookup_drop in Hseg.
    replace (next_final s + (j - next_final s)) with j in Hseg by lia.
    rewrite Hj in Hseg. injection Hseg as <-. by rewrite Hfin in Hf. }
  destruct (segments s !! k) as [segk|] eqn:Hk;
    [destruct (seg_held segk) as [hu|] eqn:Hheld|]; simpl.
  - destruct (Hslots _ _ Hk) as (_ & _ & Hhk).
    destruct (Hhk _ Hheld) as (Hhid & _ & Hhfin).
    split.
    + intros j segj [(<- & <- & _)|(Hne & Hj)]%list_lookup_insert_Some;
        [by intros hu'|].
      intros hu' Hhu'. destruct (Hbeyond _ _ _ Hj Hhu') as (? & ? & ? & ?).
      repeat split; try done. simpl. lia.
    + intros j segj v Hj.
      rewrite !last_online_unit_app, Hquiet.
      unfold last_online_unit at 1. simpl. unfold is_online_of at 1.
      rewrite Hhid, Hhfin. simpl.
      apply list_lookup_insert_Some in Hj as [(<- & <- & _)|(Hne & Hj)].
      * rewrite Nat.eqb_refl. simpl. intros [= <-].
        by destruct (Hh _ _ Hk _ Hheld) as (-> & _).
      * replace (Nat.eqb k j) with false by (symmetry; by apply Nat.eqb_neq).
        simpl. by apply Hlast.
  - split.
    + intros j segj Hj hu' Hhu'. simpl in Hj.
      destruct (Hbeyond _ _ _ Hj Hhu') as (? & ? & ? & ?).
      repeat split; try done. simpl.
      assert (j <> k) by (intros ->; rewrite Hk in Hj; injection Hj as <-; congruence).
      lia.
    + intros j segj v Hj. rewrite last_online_unit_app, Hquiet. by apply Hlast.
  - split.
    + intros j segj Hj hu' Hhu'. simpl in Hj.
      destruct (Hbeyond _ _ _ Hj Hhu') as (? & ? & ? & ?).
      repeat split; try done. simpl.
      assert (j <> k) by (intros ->; by rewrite Hk in Hj).
      lia.
    + intros j segj v Hj. rewrite last_online_unit_app, Hquiet. by apply Hlast.
Qed.

Lemma offline_complete_follows (id : nat) (s : Session) :
  wf s -> follows s (fst (offline_complete id s)) (snd (offline_complete id s)).
Proof.
  intros Hwf out0 Hb Hok. unfold offline_complete.
  destruct (segments s !! id) as [seg|] eqn:Hid; [|by rewrite app_nil_r].
  destruct (seg_state seg) eqn:Hst; try by rewrite app_nil_r.
  destruct (set_final_ok s id seg (proj1 Hwf) Hid Hst) as [Hq1 Hext1].
  set (s1 := with_segments _ s) in *.
  apply (drain_follows _ Hq1).
  - assert (Hadv1 : advances s [] s1) by (split; [done|by apply emitted_nothing]).
    pose proof (bounded_step out0 [] s s1 Hb Hadv1) as Hb1.
    by rewrite app_nil_r in Hb1.
  - apply (online_ok_update s id seg); [done|done| |done].
    by intros hu.
Qed.

Lemma sound_refl (s : Session) : wf s -> sound s [] s.
Proof. intros Hwf. split; [done|]. split; [apply advances_refl|apply follows_refl]. Qed.

Lemma sound_trans (s s1 s2 : Session) (o1 o2 : list TranscriptUnit) :
  sound s o1 s1 -> sound s1 o2 s2 -> sound s (o1 ++ o2) s2.
Proof.
  intros (_ & Hadv1 & Hf1) (Hwf2 & Hadv2 & Hf2).
  split; [done|]. split; [by eapply advances_trans|by eapply follows_trans].
Qed.

Lemma handle_event_sound (f : Frame) (out : list TranscriptUnit) (limited : bool)
    (s : Session) (ev : VadEvent) :
  wf s ->
  exists o,
    fst (fst (handle_event f (out, limited, s) ev)) = out ++ o /\
    sound s o (snd (handle_event f (out, limited, s) ev)).
Proof.
  intros Hwf. destruct ev as [offset| |offset|]; simpl.
  - exists []. rewrite app_nil_r. split; [done|].
    destruct (on_speech_start_ok offset s Hwf) as [Hwf' Hext].
    split; [done|]. split; [|apply on_speech_start_follows].
    split; [done|]. by apply emitted_nothing.
  - pose proof (on_speech_continue_ok f limited s Hwf) as [Hwf' Hadv].
    pose proof (on_speech_continue_follows f limited s Hwf) as Hfol.
    destruct (on_speech_continue f limited s) as [[o limited'] s'].
    by exists o.
  - exists []. rewrite app_nil_r. split; [done|].
    destruct (on_speech_end_ok offset s Hwf) as [Hwf' Hext].
    split; [done|]. split; [|apply on_speech_end_follows].
    split; [done|]. apply emitted_nothing.
    unfold on_speech_end. by destruct (current_open _) as [[? ?]|].
  - exists []. rewrite app_nil_r. split; [done|].
    destruct (on_speech_end_ok (sample_offset s) s Hwf) as [Hwf' Hext].
    split; [done|]. split; [|apply on_speech_end_follows].
    split; [done|]. apply emitted_nothing.
    unfold on_speech_end. by destruct (current_open _) as [[? ?]|].
Qed.

Lemma fold_events_sound (f : Frame) (evs : list VadEvent)
    (acc : list TranscriptUnit * bool * Session) :
  wf (snd acc) ->
  exists o,
    fst (fst (fold_left (handle_event f) evs acc)) = fst (fst acc) ++ o /\
    sound (snd acc) o (snd (fold_left (handle_event f) evs acc)).
Proof.
  revert acc. induction evs as [|ev rest IH]; intros [[out limited] s] Hwf.
  - exists []. simpl. rewrite app_nil_r. split; [done|]. by apply sound_refl.
  - change (fold_left (handle_event f) (ev :: rest) (out, limited, s))
      with (fold_left (handle_event f) rest (handle_event f (out, limited, s) ev)).
    destruct (handle_event_sound f out limited s ev Hwf) as (o1 & Ho1 & Hs1).
    destruct (IH _ (proj1 Hs1)) as (o2 & Ho2 & Hs2).
    exists (o1 ++ o2). split; [|by eapply sound_trans].
    rewrite Ho2, Ho1. simpl. by rewrite app_assoc.
Qed.

Lemma feed_frame_sound (acc : list TranscriptUnit * bool * Session) (f : Frame) :
  wf (snd acc) ->
  exists o,
    fst (fst (feed_frame acc f)) = fst (fst acc) ++ o /\
    sound (snd acc) o (snd (feed_frame acc f)).
Proof.
  destruct acc as [[out limited] s]. intros Hwf. unfold feed_frame.
  destruct (advance [f] (vad_state s)) as [evs vs].
  exact (fold_events_sound f evs (out, limited, with_vad vs s) Hwf).
Qed.

Lemma fold_frames_sound (frames : list Frame)
    (acc : list TranscriptUnit * bool * Session) :
  wf (snd acc) ->
  exists o,
    fst (fst (fold_left feed_frame frames acc)) = fst (fst acc) ++ o /\
    sound (snd acc) o (snd (fold_left feed_frame frames acc)).
Proof.
  revert acc. induction frames as [|f rest IH]; intros acc Hwf.
  - exists []. simpl. rewrite app_nil_r. split; [done|]. by apply sound_refl.
  - change (fold_left feed_frame (f :: rest) acc)
      with (fold_left feed_frame rest (feed_frame acc f)).
    destruct (feed_frame_sound acc f Hwf) as (o1 & Ho1 & Hs1).
    destruct (IH _ (proj1 Hs1)) as (o2 & Ho2 & Hs2).
    exists (o1 ++ o2). split; [|by eapply sound_trans].
    rewrite Ho2, Ho1. by rewrite app_assoc.
Qed.

Lemma push_audio_sound (s s' : Session) (c : AudioChunk) (o : list TranscriptUnit) :
  wf s -> push_audio s c = Ok (o, s') -> sound s o s'.
Proof.
  intros Hwf. unfold push_audio.
  assert (Hgo : forall st,
    match extract c (fx_state s) with
    | Some (frames, fx) =>
        let s1 :=
          {| state := st; config := config s;
             sample_offset := sample_offset s + N.of_nat (length (samples c));
             fx_state := fx; vad_state := vad_state s;
             segments := segments s; next_final := next_final s |} in
        let '(out, _, s2) := fold_left feed_frame frames ([], false, s1) in
        Ok (out, s2)
    | None => Fail AudioFormatError
    end = Ok (o, s') -> sound s o s').
  { intros st. destruct (extract c (fx_state s)) as [[frames fx]|]; [|done].
    simpl.
    match goal with |- context [fold_left feed_frame frames ?a] =>
      destruct (fold_frames_sound frames a Hwf) as (o1 & Ho1 & Hs1);
      destruct (fold_left feed_frame frames a) as [[out lim] s2]
    end.
    simpl in *. intros [= <- <-]. subst out. exact Hs1. }
  destruct (state s); [apply Hgo..|done].
Qed.

Lemma offline_complete_sound (id : nat) (s : Session) :
  wf s -> sound s (fst (offline_complete id s)) (snd (offline_complete id s)).
Proof.
  intros Hwf. destruct (offline_complete_ok id s Hwf) as [Hwf' Hadv].
  split; [done|]. split; [done|]. by apply offline_complete_follows.
Qed.

Lemma complete_pending_sound (s : Session) :
  wf s -> sound s (fst (complete_pending s)) (snd (complete_pending s)).
Proof.
  unfold complete_pending. generalize (seq 0 (length (segments s))) as ids.
  intros ids Hwf.
  assert (Hgen : forall (acc : list TranscriptUnit * Session),
    wf (snd acc) ->
    let r := fold_left
      (fun (acc : list TranscriptUnit * Session) (id : nat) =>
         let '(o, s') := offline_complete id (snd acc) in (fst acc ++ o, s'))
      ids acc in
    exists o, fst r = fst acc ++ o /\ sound (snd acc) o (snd r)).
  { induction ids as [|id rest IH]; intros [out s0] Hwf0; simpl in *.
    - exists []. rewrite app_nil_r. split; [done|]. by apply sound_refl.
    - pose proof (offline_complete_sound id s0 Hwf0) as Hs1.
      destruct (offline_complete id s0) as [o1 s1]. simpl in *.
      destruct (IH (out ++ o1, s1) (proj1 Hs1)) as (o2 & Ho2 & Hs2).
      exists (o1 ++ o2). simpl in *. rewrite Ho2, app_assoc.
      split; [done|]. by eapply sound_trans. }
  destruct (Hgen ([], s) Hwf) as (o & Ho & Hs). simpl in *.
  by rewrite Ho.
Qed.

Lemma close_session_sound (s s' : Session) (o : list TranscriptUnit) :
  wf s -> close_session s = Ok (o, s') -> sound s o s'.
Proof.
  intros Hwf. unfold close_session.
  destruct (on_speech_end_ok (sample_offset s) s Hwf) as [Hwf1 Hext1].
  assert (Hs1 : sound s [] (on_speech_end (sample_offset s) s)).
  { split; [done|]. split; [|apply on_speech_end_follows].
    split; [done|]. apply emitted_nothing.
    unfold on_speech_end. by destruct (current_open _) as [[? ?]|]. }
  assert (Hgo :
    (let '(out, s2) :=
       if close_blocking (config s)
       then complete_pending (on_speech_end (sample_offset s) s)
       else drain (on_speech_end (sample_offset s) s) in
     Ok (out, with_state Closed s2)) = Ok (o, s') -> sound s o s').
  { destruct (close_blocking (config s)).
    - pose proof (complete_pending_sound _ Hwf1) as Hs2.
      destruct (complete_pending _) as [out s2]. intros [= <- <-].
      exact (sound_trans _ _ _ [] _ Hs1 Hs2).
    - destruct (drain_ok _ (proj1 Hwf1)) as [Hwf2 Hadv2].
      pose proof (drain_follows _ (proj1 Hwf1)) as Hf2.
      destruct (drain _) as [out s2]. intros [= <- <-].
      exact (sound_trans _ _ _ [] _ Hs1 (conj Hwf2 (conj Hadv2 Hf2))). }
  destruct (state s); [exact Hgo..|done].
Qed.

Lemma step_sound (s : Session) (call : Call) :
  wf s -> sound s (fst (step s call)) (snd (step s call)).
Proof.
  intros Hwf. destruct call as [c|id|]; simpl.
  - destruct (push_audio s c) as [[o s']|e] eqn:Hpush;
      [by eapply push_audio_sound|by apply sound_refl].
  - by apply offline_complete_sound.
  - destruct (close_session s) as [[o s']|e] eqn:Hclose;
      [by eapply close_session_sound|by apply sound_refl].
Qed.

Lemma run_sound (calls : list Call) (s : Session) :
  wf s -> sound s (fst (run calls s)) (snd (run calls s)).
Proof.
  revert s. induction calls as [|call rest IH]; intros s Hwf.
  - by apply sound_refl.
  - rewrite run_cons. simpl.
    pose proof (step_sound s call Hwf) as Hs1.
    exact (sound_trans _ _ _ _ _ Hs1 (IH _ (proj1 Hs1))).
Qed.

Lemma run_app (l1 l2 : list Call) (s : Session) :
  run (l1 ++ l2) s =
  (fst (run l1 s) ++ fst (run l2 (snd (run l1 s))),
   snd (run l2 (snd (run l1 s)))).
Proof.
  revert s. induction l1 as [|call l1 IH]; intros s.
  - simpl. by destruct (run l2 s).
  - rewrite <- app_comm_cons, !run_cons, IH. simpl. by rewrite app_assoc.
Qed.

Lemma run_from_open (cfg : Config) (s0 : Session) (calls : list Call) :
  open_session cfg = Ok s0 ->
  wf (snd (run calls s0)) /\
  advances s0 (fst (run calls s0)) (snd (run calls s0)) /\
  online_ok (fst (run calls s0)) (snd (run calls s0)) /\
  config (snd (run calls s0)) = cfg /\
  next_final s0 = 0.
Proof.
  intros (Hwf0 & Hcfg & Hnext0 & Hsegs & _)%open_session_fresh.
  destruct (run_sound calls s0 Hwf0) as (Hwf & Hadv & Hfol).
  split; [done|]. split; [done|].
  split; [|split; [by rewrite (proj1 (proj1 Hadv))|done]].
  apply (Hfol []).
  - split; [|intros _]; intros v Hv; by apply elem_of_nil in Hv.
  - split; [intros id seg Hid|intros id seg v Hid]; by rewrite Hsegs in Hid.
Qed.

(** A final unit that is stored has been emitted, unless an earlier
    Segment is not Finalized yet. *)
Lemma emitted_or_blocked (s s' : Session) (o : list TranscriptUnit)
    (id : nat) (seg : Segment) (u : TranscriptUnit) :
  wf s' -> advances s o s' ->
  segments s' !! id = Some seg -> seg_final seg = Some u ->
  next_final s <= id ->
  u ∈ o \/
  exists j segj, j < id /\ segments s' !! j = Some segj /\ seg_state segj <> Finalized.
Proof.
  intros [[Hslots _] Hdrained] [_ (Hfinals & Hunits & _)] Hid Hu Hle.
  destruct (decide (id < next_final s')) as [Hlt|Hge].
  - left.
    assert (Hidx : (segment_id <$> List.filter finality o) !! (id - next_final s)
                   = Some id).
    { rewrite Hfinals. apply lookup_seq. lia. }
    apply list_lookup_fmap_Some in Hidx as (v & Hvid & Hv).
    apply list_elem_of_lookup_2, filter_elem_of in Hv as [Hin Hfin].
    destruct (Hunits v Hin) as (seg2 & Hseg2 & _ & Hslot).
    rewrite <- Hvid, Hid in Hseg2. injection Hseg2 as <-.
    rewrite (Hslot Hfin) in Hu. by injection Hu as <-.
  - right.
    pose proof (lookup_lt_Some _ _ _ Hid) as Hlen.
    destruct (lookup_lt_is_Some_2 (segments s') (next_final s')) as [segj Hj]; [lia|].
    pose proof (Hdrained _ Hj) as Hnone.
    assert (Hne : next_final s' <> id).
    { intros Heq. rewrite Heq, Hid in Hj. injection Hj as <-. congruence. }
    exists (next_final s'), segj. split; [lia|]. split; [done|].
    intros Hst. destruct (Hslots _ _ Hj) as (_ & Hiff & _).
    apply Hiff in Hst as [w Hw]. congruence.
Qed.

(** The final unit of a Finalized Segment whose offline pass fails. *)
Lemma degraded_final_at_end (cfg : Config) (s0 : Session) (calls : list Call)
    (id : nat) (seg : Segment) :
  open_session cfg = Ok s0 ->
  segments (snd (run calls s0)) !! id = Some seg ->
  seg_state seg = Finalized ->
  run_pass cfg offline (seg_frames seg) = None ->
  seg_final seg = Some (degraded_unit cfg id seg) /\
  (degraded_unit cfg id seg ∈ fst (run calls s0) \/
   exists j segj, j < id /\ segments (snd (run calls s0)) !! j = Some segj /\
     seg_state segj <> Finalized) /\
  (forall v, v ∈ fst (run calls s0) -> segment_id v = id -> finality v = true ->
     v = degraded_unit cfg id seg) /\
  (forall v, last_online_unit id (fst (run calls s0)) = Some v ->
     text v = text (degraded_unit cfg id seg)).
Proof.
  intros Hopen Hid Hst Hfail.
  destruct (run_from_open cfg s0 calls Hopen) as (Hwf & Hadv & Hok & Hcfg & Hnext0).
  destruct (proj1 (proj1 Hwf) _ _ Hid) as (Hfinal & Hiff & _).
  destruct (proj2 Hiff Hst) as [w Hw].
  assert (Hslot : seg_final seg = Some (degraded_unit cfg id seg)).
  { rewrite Hw. f_equal. rewrite (Hfinal w Hw), Hcfg.
    unfold final_unit. by rewrite Hfail. }
  split; [done|]. split; [|split].
  - eapply emitted_or_blocked; try done. lia.
  - intros v Hv Hvid Hfin.
    destruct (proj1 (proj2 (proj2 Hadv)) v Hv) as (seg2 & Hseg2 & _ & Hs2).
    rewrite Hvid, Hid in Hseg2. injection Hseg2 as <-.
    rewrite (Hs2 Hfin) in Hslot. by injection Hslot.
  - intros v Hv. rewrite (proj2 Hok _ _ _ Hid Hv), Hcfg. done.
Qed.

(** A reported completion finalizes a PendingOffline Segment, and stores
    its final unit for good. *)
Lemma completion_finalizes (cfg : Config) (s0 : Session) (before after : list Call)
    (id : nat) (seg : Segment) :
  open_session cfg = Ok s0 ->
  segments (snd (run before s0)) !! id = Some seg ->
  seg_state seg = PendingOffline ->
  exists seg',
    segments (snd (run (before ++ OfflineDone id :: after) s0)) !! id = Some seg' /\
    seg_state seg' = Finalized /\
    seg_final seg' = Some (final_unit cfg id seg).
Proof.
  intros Hopen Hid Hst.
  destruct (run_from_open cfg s0 before Hopen) as (Hwf & _ & _ & Hcfg & _).
  destruct (run_from_open cfg s0 (before ++ OfflineDone id :: after) Hopen)
    as (Hwf' & _).
  rewrite run_app, run_cons in *. simpl in *.
  set (s := snd (run before s0)) in *.
  assert (Hstored : exists seg2,
            segments (snd (offline_complete id s)) !! id = Some seg2 /\
            seg_final seg2 = Some (final_unit cfg id seg)).
  { unfold offline_complete. rewrite Hid, Hst.
    destruct (set_final_ok s id seg (proj1 Hwf) Hid Hst) as [Hq1 _].
    destruct (drain_ok _ Hq1) as [_ [(_ & _ & Hsegs) _]].
    destruct (Hsegs id (seg_set_final (final_unit (config s) id seg) seg))
      as (seg2 & Hseg2 & _ & Hkeep).
    { simpl. apply list_lookup_insert_eq. by eapply lookup_lt_Some. }
    exists seg2. split; [done|]. rewrite <- Hcfg. by apply Hkeep. }
  destruct Hstored as (seg2 & Hseg2 & Hfin2).
  destruct (offline_complete_ok id s Hwf) as [Hwf2 _].
  destruct (run_ok after _ Hwf2) as [_ [(_ & _ & Hsegs) _]].
  destruct (Hsegs _ _ Hseg2) as (seg3 & Hseg3 & _ & Hkeep).
  exists seg3. split; [done|]. split; [|by apply Hkeep].
  destruct (proj1 (proj1 Hwf') _ _ Hseg3) as (_ & Hiff & _).
  apply Hiff. eexists. by apply Hkeep.
Qed.

(** A successful online pass is recorded as the last online Hypothesis of
    the open Segment, whether its unit is emitted or held back. *)
Lemma online_pass_recorded (f : Frame) (s : Session) (id : nat) (seg : Segment)
    (h : Hyp) :
  current_open (segments s) = Some (id, seg) ->
  online_pass (config s) = true ->
  run_pass (config s) online (seg_frames seg ++ [f]) = Some h ->
  exists seg',
    segments (snd (on_speech_continue f false s)) !! id = Some seg' /\
    seg_frames seg' = seg_frames seg ++ [f] /\
    last_online_text (config s) seg' = render (config s) h.
Proof.
  intros Hopen Hon Hpass. unfold on_speech_continue. rewrite Hopen, Hon. simpl.
  rewrite Hpass. apply current_open_Some in Hopen as (Hid & _).
  pose proof (lookup_lt_Some _ _ _ Hid) as Hlt.
  destruct (may_emit_online s id); simpl; rewrite list_lookup_insert_eq by done;
    by eexists.
Qed.

(** C5: a PendingOffline Segment whose offline pass fails is Finalized by
    the reported completion with a final unit marked degraded that carries
    the text of its last online Hypothesis. That unit is emitted (at once
    when every earlier Segment is Finalized, otherwise as soon as they
    are), it is the only final unit of the Segment, and its text is that
    of the last online unit the caller observed for the Segment. The
    completion leaves the session accepting whatever audio it accepted
    before. The same holds of any Finalized Segment whose offline pass
    fails, however it was completed; a successful online pass is recorded
    as the last online Hypothesis; and every final unit the caller ever
    observes belongs to a Finalized Segment and, when the offline pass of
    that Segment fails, is its degraded unit. *)
Theorem failed_offline_pass_degrades
    (cfg : Config) (s0 : Session) (before after : list Call)
    (id : nat) (seg : Segment) :
  open_session cfg = Ok s0 ->
  segments (snd (run before s0)) !! id = Some seg ->
  seg_state seg = PendingOffline ->
  run_pass cfg offline (seg_frames seg) = None ->
  let s := snd (run before s0) in
  let out := fst (run (before ++ OfflineDone id :: after) s0) in
  let s' := snd (run (before ++ OfflineDone id :: after) s0) in
  let u := degraded_unit cfg id seg in
  (exists seg', segments s' !! id = Some seg' /\
     seg_state seg' = Finalized /\ seg_final seg' = Some u) /\
  (u ∈ out \/
   exists j segj, j < id /\ segments s' !! j = Some segj /\
     seg_state segj <> Finalized) /\
  ((forall j segj, j < id -> segments s !! j = Some segj ->
      seg_state segj = Finalized) ->
   u ∈ fst (offline_complete id s)) /\
  (forall v, v ∈ out -> segment_id v = id -> finality v = true -> v = u) /\
  (forall v, last_online_unit id out = Some v -> text v = text u) /\
  (state (snd (offline_complete id s)) = state s /\
   forall c, (exists r, push_audio s c = Ok r) ->
     exists r, push_audio (snd (offline_complete id s)) c = Ok r) /\
  (forall calls id' seg',
     segments (snd (run calls s0)) !! id' = Some seg' ->
     seg_state seg' = Finalized ->
     run_pass cfg offline (seg_frames seg') = None ->
     seg_final seg' = Some (degraded_unit cfg id' seg') /\
     (degraded_unit cfg id' seg' ∈ fst (run calls s0) \/
      exists j segj, j < id' /\ segments (snd (run calls s0)) !! j = Some segj /\
        seg_state segj <> Finalized) /\
     (forall v, v ∈ fst (run calls s0) -> segment_id v = id' ->
        finality v = true -> v = degraded_unit cfg id' seg') /\
     (forall v, last_online_unit id' (fst (run calls s0)) = Some v ->
        text v = text (degraded_unit cfg id' seg'))) /\
  (forall f s1 id1 seg1 h,
     current_open (segments s1) = Some (id1, seg1) ->
     online_pass (config s1) = true ->
     run_pass (config s1) online (seg_frames seg1 ++ [f]) = Some h ->
     exists seg1',
       segments (snd (on_speech_continue f false s1)) !! id1 = Some seg1' /\
       seg_frames seg1' = seg_frames seg1 ++ [f] /\
       last_online_text (config s1) seg1' = render (config s1) h) /\
  (forall calls v,
     v ∈ fst (run calls s0) -> finality v = true ->
     exists segv,
       segments (snd (run calls s0)) !! segment_id v = Some segv /\
       seg_state segv = Finalized /\
       (run_pass cfg offline (seg_frames segv) = None ->
        v = degraded_unit cfg (segment_id v) segv)).
Proof.
  intros Hopen Hid Hst Hfail s out s' u.
  assert (Hu : final_unit cfg id seg = u).
  { unfold final_unit. by rewrite Hfail. }
  destruct (completion_finalizes cfg s0 before after id seg Hopen Hid Hst)
    as (seg' & Hseg' & Hst' & Hfin').
  rewrite Hu in Hfin'. fold s' in Hseg'.
  destruct (run_from_open cfg s0 (before ++ OfflineDone id :: after) Hopen)
    as (Hwf' & Hadv' & Hok' & Hcfg' & Hnext0).
  fold s' out in Hwf', Hadv', Hok', Hcfg'.
  destruct (run_from_open cfg s0 before Hopen) as (Hwf & _ & _ & Hcfg & _).
  fold s in Hwf, Hcfg.
  assert (Hhyp' : last_online_text cfg seg' = text u).
  { destruct (proj1 (proj1 Hwf') _ _ Hseg') as (Hfinal & _).
    pose proof (Hfinal u Hfin') as Heq. rewrite Hcfg' in Heq.
    unfold final_unit in Heq. destruct (run_pass cfg offline (seg_frames seg')).
    - by apply (f_equal degraded) in Heq.
    - by apply (f_equal text) in Heq. }
  split; [by exists seg'|].
  split; [|split; [|split; [|split; [|split; [|split; [|split]]]]]].
  - eapply emitted_or_blocked; try done. lia.
  - intros Hearlier.
    destruct (offline_complete_ok id s Hwf) as [Hwf2 Hadv2].
    destruct (completion_finalizes cfg s0 before [] id seg Hopen Hid Hst)
      as (seg2 & Hseg2 & _ & Hfin2).
    rewrite run_app, run_cons in Hseg2. simpl in Hseg2. fold s in Hseg2.
    rewrite Hu in Hfin2.
    assert (Hle : next_final s <= id).
    { destruct (decide (next_final s <= id)) as [|Hgt]; [done|].
      destruct (proj2 (proj1 Hwf) id) as (seg0 & Hseg0 & [w Hw]); [lia|].
      fold s in Hid. rewrite Hid in Hseg0. injection Hseg0 as <-.
      rewrite (unfinished_slot_empty _ _ _ (proj1 (proj1 Hwf) _ _ Hid)) in Hw;
        [done|by rewrite Hst]. }
    destruct (emitted_or_blocked s _ _ id seg2 u Hwf2 Hadv2 Hseg2 Hfin2 Hle)
      as [Hin|(j & segj & Hj & Hsegj & Hnot)]; [done|].
    exfalso. destruct (lookup_lt_is_Some_2 (segments s) j) as [segj0 Hj0].
    { apply Nat.lt_trans with id; [exact Hj|exact (lookup_lt_Some _ _ _ Hid)]. }
    pose proof (Hearlier j segj0 Hj Hj0) as Hfinj.
    destruct (proj1 (proj1 Hwf) _ _ Hj0) as (_ & Hiff & _).
    destruct (proj2 Hiff Hfinj) as [w Hw].
    destruct (proj2 (proj2 (proj1 Hadv2)) _ _ Hj0) as (segj2 & Hsegj2 & _ & Hkeep).
    rewrite Hsegj in Hsegj2. injection Hsegj2 as <-.
    destruct (proj1 (proj1 Hwf2) _ _ Hsegj) as (_ & Hiff2 & _).
    apply Hnot, Hiff2. eexists. by apply Hkeep.
  - intros v Hv Hvid Hfin.
    destruct (proj1 (proj2 (proj2 Hadv')) v Hv) as (seg2 & Hseg2 & _ & Hs2).
    rewrite Hvid, Hseg' in Hseg2. injection Hseg2 as <-.
    rewrite (Hs2 Hfin) in Hfin'. by injection Hfin'.
  - intros v Hv. rewrite (proj2 Hok' _ _ _ Hseg' Hv), Hcfg'. exact Hhyp'.
  - split; [apply offline_complete_state|].
    intros c Hacc. apply push_audio_accepts. apply push_audio_accepts in Hacc.
    by rewrite offline_complete_state, offline_complete_fx.
  - intros calls id' seg'0. by apply degraded_final_at_end.
  - intros f s1 id1 seg1 h. apply online_pass_recorded.
  - intros calls v Hv Hfin.
    destruct (run_from_open cfg s0 calls Hopen) as (Hwfc & Hadvc & _ & Hcfgc & _).
    destruct (proj1 (proj2 (proj2 Hadvc)) v Hv) as (segv & Hsegv & _ & Hslot).
    destruct (proj1 (proj1 Hwfc) _ _ Hsegv) as (Hfinal & Hiff & _).
    exists segv. split; [done|]. split; [apply Hiff; eexists; by apply Hslot|].
    intros Hfailv. rewrite (Hfinal v (Hslot Hfin)), Hcfgc.
    unfold final_unit. by rewrite Hfailv.
Qed.

End Collaborators.

(** ** A small set of collaborators, for running the orchestrator

    Samples and frames are numbers; the extractor yields one frame per
    sample. The VAD reads the frame: 1 starts a Segment at the current
    offset and belongs to it, 2 and 9 continue it, 3 continues and ends
    it, 4 is a timeout, anything else is silence. Offsets count frames.
    Inference fails in the offline pass on a Segment that holds a 9. The
    text of a hypothesis is one digit per frame. *)
Module Toy.

Definition extract (c : AudioChunk (Sample := nat)) (st : unit)
  : option (list nat * unit) :=
  Some (samples c, st).

Definition vad_frame (off : N) (f : nat) : list VadEvent :=
  match f with
  | 1 => [SpeechStart off; SpeechContinue]
  | 2 | 9 => [SpeechContinue]
  | 3 => [SpeechContinue; SpeechEnd (off + 1)]
  | 4 => [Timeout]
  | _ => []
  end.

Fixpoint advance (frames : list nat) (off : N) : list VadEvent * N :=
  match frames with
  | [] => ([], off)
  | f :: rest =>
      let '(evs, off') := advance rest (off + 1) in
      (vad_frame off f ++ evs, off')
  end.

Definition infer (frames : list nat) (mode : PassKind) (accelerated : bool)
  : option (list nat) :=
  match mode with
  | offline => if existsb (Nat.eqb 9) frames then None else Some frames
  | online => Some frames
  end.

Definition decode (t : list nat) (mode : PassKind) : option (list nat) := Some t.

Definition digit (n : nat) : ascii := ascii_of_nat (48 + n).

Definition postprocess (punct itn : bool) (h : list nat) : string :=
  string_of_list_ascii (map digit h).

Definition known_profile (name : string) : bool := String.eqb name "zh".

Definition chunk (fs : list nat) : AudioChunk :=
  {| samples := fs; seq_no := 0; chunk_offset := 0 |}.

Definition cfg (unordered blocking : bool) : Config :=
  {| chunk_size := 10; profile := "zh"; online_pass := true;
     max_segment_duration := 100; prefer_accelerated := false;
     allow_unordered_partials := unordered; punctuation := true; itn := true;
     close_blocking := blocking |}.

Definition open_session := open_session (Frame := nat) (Hyp := list nat) known_profile tt 0%N.
Definition push_audio := push_audio extract advance infer decode postprocess.
Definition offline_complete :=
  offline_complete (FxState := unit) (VadState := N) infer decode postprocess.
Definition close_session :=
  close_session (FxState := unit) (VadState := N) infer decode postprocess.
Definition run := run extract advance infer decode postprocess.

(** The session a configuration opens (Idle, nothing buffered). *)
Definition fresh (c : Config) : Session (Frame := nat) (Hyp := list nat) :=
  {| state := Idle; config := c; sample_offset := 0; fx_state := tt;
     vad_state := 0%N; segments := []; next_final := 0 |}.

End Toy.

(** ** The theorems on the small collaborators *)

Definition push (fs : list nat) : Call := PushAudio (Toy.chunk fs).
Definition completed (id : nat) : Call (Sample := nat) := OfflineDone id.
Definition close : Call (Sample := nat) := CloseSession.

Lemma toy_extract_resumable : resumable Toy.extract.
Proof.
  split.
  - intros c c' fx Hs. unfold Toy.extract. by rewrite Hs.
  - intros c c1 c2 fx Hs. unfold Toy.extract. simpl. by rewrite Hs.
Qed.

(** C4 as stated fails: with allow_unordered_partials on, the online unit
    of the second Segment (start 3) leaves before the final unit of the
    first (start 0). *)
Lemma unordered_partials_break_order :
  let cfg := Toy.cfg true false in
  let out := fst (Toy.run [push [1; 3]; push [0; 1; 2]; completed 0] (Toy.fresh cfg)) in
  Toy.open_session cfg = Ok (Toy.fresh cfg) /\
  start_offset <$> out = [0; 3; 0]%N /\
  finality <$> out = [false; false; true] /\
  ~ StronglySorted N.le (start_offset <$> out).
Proof.
  split; [reflexivity|]. split; [vm_compute; reflexivity|].
  split; [vm_compute; reflexivity|].
  assert (Hout : start_offset <$>
            fst (Toy.run [push [1; 3]; push [0; 1; 2]; completed 0]
                   (Toy.fresh (Toy.cfg true false))) = [0; 3; 0]%N)
    by (vm_compute; reflexivity).
  rewrite Hout. intros Hs.
  apply StronglySorted_cons in Hs as [_ Hs].
  apply StronglySorted_cons in Hs as [Hall _].
  apply Forall_cons in Hall as [Hle _]. lia.
Qed.

(** C4, with ordered partials. *)
Lemma emission_order_witness :
  let out :=
    fst (Toy.run [push [1; 3]; push [0; 1; 2]; completed 0; push [2; 3]; completed 1]
           (Toy.fresh (Toy.cfg false false))) in
  StronglySorted le (segment_id <$> out) /\
  StronglySorted N.le (start_offset <$> out).
Proof.
  destruct (emission_order Toy.known_profile tt 0%N
              Toy.extract Toy.advance Toy.infer Toy.decode Toy.postprocess
              (Toy.cfg false false) (Toy.fresh (Toy.cfg false false))
              [push [1; 3]; push [0; 1; 2]; completed 0; push [2; 3]; completed 1])
    as (_ & _ & Hord & Hoff).
  - reflexivity.
  - split; [apply Hord; reflexivity|].
    apply Hoff; [|reflexivity].
    vm_compute. repeat constructor; discriminate.
Defined.

(** The same five units, start offsets 0, 0, 3, 3, 3. *)
Example ordered_run_offsets :
  start_offset <$>
    fst (Toy.run [push [1; 3]; push [0; 1; 2]; completed 0; push [2; 3]; completed 1]
           (Toy.fresh (Toy.cfg false false)))
  = [0; 0; 3; 3; 3]%N.
Proof. vm_compute. reflexivity. Qed.

(** C5: the Segment holds a frame on which offline inference fails; the
    last online unit the caller saw for it read "129". *)
Lemma failed_offline_pass_degrades_witness :
  let out := fst (Toy.run [push [1; 2]; push [9; 3]; completed 0]
                    (Toy.fresh (Toy.cfg false false))) in
  let u := {| segment_id := 0; pass_kind := online; text := "129";
              start_offset := 0; end_offset := Some 4%N;
              finality := true; degraded := true |} in
  u ∈ out /\
  (forall v, last_online_unit 0 out = Some v -> text v = "129").
Proof.
  pose proof (failed_offline_pass_degrades Toy.known_profile tt 0%N
                Toy.extract Toy.advance Toy.infer Toy.decode Toy.postprocess
                (Toy.cfg false false) (Toy.fresh (Toy.cfg false false))
                [push [1; 2]; push [9; 3]] [] 0
                {| seg_start := 0; seg_end := Some 4%N; seg_frames := [1; 2; 9; 3];
                   seg_hyp := Some [1; 2; 9]; seg_state := PendingOffline;
                   seg_final := None; seg_held := None |}) as H.
  cbv zeta in H.
  destruct H as (_ & Hemit & _ & _ & Hlast & _).
  - reflexivity.
  - vm_compute. reflexivity.
  - reflexivity.
  - reflexivity.
  - split; [|exact Hlast].
    destruct Hemit as [Hin|(j & segj & Hj & _)]; [exact Hin|lia].
Defined.

(** The same on a later Segment: the unit waits for the earlier Segment
    and then leaves, and the online unit that was held back for it is never
    emitted. *)
Example degraded_unit_waits_its_turn :
  (text <$> fst (Toy.run [push [1; 3]; push [1; 9; 3]; completed 1]
                   (Toy.fresh (Toy.cfg false false))),
   (fun v => (segment_id v, text v, finality v, degraded v)) <$>
     fst (Toy.run [push [1; 3]; push [1; 9; 3]; completed 1; completed 0]
            (Toy.fresh (Toy.cfg false false))))
  = (["1"], [(0, "1", false, false); (0, "13", true, false); (1, "1", true, true)]).
Proof. vm_compute. reflexivity. Qed.

(** C6: a session closed after one Segment. *)
Lemma push_after_close_fails_witness :
  Toy.push_audio
    (snd (Toy.run [completed 0]
            (snd (Toy.run [push [1; 3]; close] (Toy.fresh (Toy.cfg false true))))))
    (Toy.chunk [1; 2]) = Fail SessionClosedError.
Proof.
  apply (push_after_close_fails
           Toy.extract Toy.advance Toy.infer Toy.decode Toy.postprocess).
  reflexivity.
Defined.

(** C7: three frames in one chunk, and cut after the first. *)
Lemma chunking_keeps_final_text_witness :
  let u := {| segment_id := 0; pass_kind := offline; text := "123";
              start_offset := 0; end_offset := Some 3%N;
              finality := true; degraded := false |} in
  degraded u = degraded u /\ (degraded u = false -> text u = text u).
Proof.
  intros u.
  apply (chunking_keeps_final_text Toy.known_profile tt 0%N
           Toy.extract Toy.advance Toy.infer Toy.decode Toy.postprocess
           (Toy.cfg false false) (Toy.fresh (Toy.cfg false false))
           [push [1; 2; 3]; completed 0] [push [1]; push [2; 3]; completed 0]
           (Toy.chunk [1; 2; 3]) u u).
  - exact toy_extract_resumable.
  - reflexivity.
  - reflexivity.
  - reflexivity.
  - apply list_elem_of_In. vm_compute. right. left. reflexivity.
  - apply list_elem_of_In. vm_compute. right. right. left. reflexivity.
  - reflexivity.
  - reflexivity.
  - reflexivity.
Defined.

(** One chunk or three: the same final texts, Segment by Segment. *)
Example chunking_same_finals :
  text <$> List.filter finality
    (fst (Toy.run [push [1; 2; 3; 0; 1; 2; 3]; completed 0; completed 1]
            (Toy.fresh (Toy.cfg false false))))
  = text <$> List.filter finality
      (fst (Toy.run [push [1; 2]; push [3; 0; 1]; completed 0; push [2; 3]; completed 1]
              (Toy.fresh (Toy.cfg false false)))).
Proof. vm_compute. reflexivity. Qed.

End Orchestrator.
